(** * Symbol table of the KPL front end ([Week 4/src/symtab.c])

    A shallow embedding of the symbol table: the C heap is split into one
    typed region per struct ([Type], [ConstantValue], [Object], [Scope]),
    a pointer is an optional address into its region ([None] is [NULL]),
    and every C function is a computation in a small monad whose outcomes
    are a normal return, [exit(1)], or a fault (a dereference of [NULL] or
    of an address that holds nothing).

    Modelling conventions.
    - [malloc] always finds memory and hands out an address never used
      before; the functions that build the table never free anything,
      and [cleanSymTab] with the [free...] family is embedded apart,
      over a record of the blocks freed so far.
    - The attribute block an [Object] points to ([funcAttrs], ...) is
      owned by that object alone and never shared, so it is stored inline
      in the object, as the active member of the union.
    - An [ObjectNode] chain is the list of the [Object*] it carries.
    - The singleton [SymTab] is stored inline in the global [symbolTable]
      ([None] before [initSymTab]).
    - [symtab.h] is not part of the sources: the struct layouts are read
      off the field accesses of [symtab.c], and [MAX_IDENT_LEN] is a
      parameter of the development. *)

From Stdlib Require Import ZArith Ascii String.
From stdpp Require Import base option list strings.

Set Default Proof Using "Type".
Local Open Scope Z_scope.
Local Open Scope nat_scope.

(** ** Data model *)

Abbreviation addr := nat (only parsing).

(** A C pointer into one region: [None] is [NULL]. *)
Abbreviation ptr := (option nat) (only parsing).

Inductive TypeClass := TP_INT | TP_CHAR | TP_ARRAY.

Inductive ObjectKind :=
| OBJ_CONSTANT | OBJ_VARIABLE | OBJ_TYPE | OBJ_FUNCTION
| OBJ_PROCEDURE | OBJ_PARAMETER | OBJ_PROGRAM.

Inductive ParamKind := PARAM_VALUE | PARAM_REFERENCE.

#[global] Instance TypeClass_eq_dec : EqDecision TypeClass.
Proof. solve_decision. Defined.
#[global] Instance ObjectKind_eq_dec : EqDecision ObjectKind.
Proof. solve_decision. Defined.
#[global] Instance ParamKind_eq_dec : EqDecision ParamKind.
Proof. solve_decision. Defined.

(** [struct Type_]: [typeClass], [arraySize], [elementType]. *)
Record Type_ := mkType {
  typeClass : TypeClass;
  arraySize : Z;
  elementType : ptr
}.

(** The payload of a [ConstantValue]: the member of the union that was
    written last, or [Undef] for memory fresh from [malloc]. *)
Inductive ConstantPayload :=
| Undef
| IntMember (intValue : Z)
| CharMember (charValue : ascii).

(** [struct ConstantValue_]: the tag [type] and the payload. *)
Record ConstantValue := mkConstantValue {
  type : TypeClass;
  payload : ConstantPayload
}.

(** Reading one member of the payload; a member that was not the one
    written last has no determined value. *)
Definition intValue (c : ConstantValue) : option Z :=
  match payload c with IntMember z => Some z | _ => None end.
Definition charValue (c : ConstantValue) : option ascii :=
  match payload c with CharMember ch => Some ch | _ => None end.

(** The attribute block of an [Object], one constructor per member of the
    union; [NoAttrs] is the block of an object just out of
    [createBaseObject]. *)
Inductive Attributes :=
| NoAttrs
| progAttrs (scope : ptr)
| varAttrs (vtype : ptr) (scope : ptr)
| constAttrs (value : ptr)
| typeAttrs (actualType : ptr)
| funcAttrs (paramList : list ptr) (returnType : ptr) (scope : ptr)
| procAttrs (paramList : list ptr) (scope : ptr)
| paramAttrs (pkind : ParamKind) (ptype : ptr) (function : ptr).

Record Object := mkObject {
  name : string;
  kind : ObjectKind;
  attrs : Attributes
}.

Record Scope := mkScope {
  objList : list ptr;
  owner : ptr;
  outer : ptr
}.

Record SymTab := mkSymTab {
  program : ptr;
  currentScope : ptr;
  globalObjectList : list ptr
}.

(** The whole program state: the three file-level globals, the four heap
    regions, and what has been written to [stderr]. *)
Record State := mkState {
  symbolTable : option SymTab;
  globalIntType : ptr;
  globalCharType : ptr;
  types : list Type_;
  constants : list ConstantValue;
  objects : list Object;
  scopes : list Scope;
  stderr : list string
}.

(** The state of the process before any call. *)
Definition startState : State :=
  mkState None None None [] [] [] [] [].

(** ** The monad of C calls *)

Inductive outcome (A : Type) :=
| Ok (a : A) (st : State)
| Exited (st : State)
| Fault.
Arguments Ok {A} a st.
Arguments Exited {A} st.
Arguments Fault {A}.

Definition M (A : Type) : Type := State → outcome A.

#[global] Instance M_ret : MRet M := λ A a st, Ok a st.
#[global] Instance M_bind : MBind M := λ A B f m st,
  match m st with
  | Ok a st' => f a st'
  | Exited st' => Exited st'
  | Fault => Fault
  end.

Definition fault {A} : M A := λ _, Fault.

(** [exit(1)]. *)
Definition exit1 {A} : M A := λ st, Exited st.

(** [fprintf(stderr, msg)]. *)
Definition fprintf_stderr (msg : string) : M unit := λ st,
  Ok tt (mkState (symbolTable st) (globalIntType st) (globalCharType st)
           (types st) (constants st) (objects st) (scopes st)
           (stderr st ++ [msg])).

(** A heap region: how to read its cells off the state and how to put
    them back. *)
Record region (T : Type) := mkRegion {
  cells : State → list T;
  set_cells : list T → State → State
}.
Arguments cells {T} r st.
Arguments set_cells {T} r l st.

Definition Types : region Type_ :=
  mkRegion _ types (λ l st,
    mkState (symbolTable st) (globalIntType st) (globalCharType st)
      l (constants st) (objects st) (scopes st) (stderr st)).
Definition Constants : region ConstantValue :=
  mkRegion _ constants (λ l st,
    mkState (symbolTable st) (globalIntType st) (globalCharType st)
      (types st) l (objects st) (scopes st) (stderr st)).
Definition Objects : region Object :=
  mkRegion _ objects (λ l st,
    mkState (symbolTable st) (globalIntType st) (globalCharType st)
      (types st) (constants st) l (scopes st) (stderr st)).
Definition Scopes : region Scope :=
  mkRegion _ scopes (λ l st,
    mkState (symbolTable st) (globalIntType st) (globalCharType st)
      (types st) (constants st) (objects st) l (stderr st)).

(** [malloc(sizeof(T))] followed by the assignments that fill the block
    in: the new cell sits at the first unused address. *)
Definition malloc {T} (r : region T) (x : T) : M addr := λ st,
  Ok (length (cells r st)) (set_cells r (cells r st ++ [x]) st).

(** [allocateMemory] is [malloc] with a test of the result; [malloc]
    never returns [NULL] here, so the branch that prints
    [Memory allocation failed] and exits is never taken. *)
Definition allocateMemory {T} (r : region T) (x : T) : M addr := malloc r x.

(** [*p] as an rvalue. *)
Definition load {T} (r : region T) (p : ptr) : M T := λ st,
  match p with
  | None => Fault
  | Some a => match cells r st !! a with
              | Some x => Ok x st
              | None => Fault
              end
  end.

(** [*p = x]. *)
Definition store {T} (r : region T) (p : ptr) (x : T) : M unit := λ st,
  match p with
  | None => Fault
  | Some a => match cells r st !! a with
              | Some _ => Ok tt (set_cells r (<[a:=x]> (cells r st)) st)
              | None => Fault
              end
  end.

(** [symbolTable->...] as an rvalue and as an lvalue. *)
Definition getSymTab : M SymTab := λ st,
  match symbolTable st with
  | Some tab => Ok tab st
  | None => Fault
  end.

Definition setSymTab (tab : option SymTab) (st : State) : State :=
  mkState tab (globalIntType st) (globalCharType st)
    (types st) (constants st) (objects st) (scopes st) (stderr st).

Definition putSymTab (tab : SymTab) : M unit := λ st,
  match symbolTable st with
  | Some _ => Ok tt (setSymTab (Some tab) st)
  | None => Fault
  end.

Definition newline : string := String (ascii_of_nat 10) EmptyString.

(** ** Type management *)

Definition makeIntType : M ptr :=
  t ← allocateMemory Types (mkType TP_INT 0 None);
  mret (Some t).

Definition makeCharType : M ptr :=
  t ← allocateMemory Types (mkType TP_CHAR 0 None);
  mret (Some t).

Definition makeArrayType (arraySize : Z) (elementType : ptr) : M ptr :=
  if bool_decide (arraySize ≤ 0)%Z || bool_decide (elementType = None) then
    fprintf_stderr ("Invalid array parameters" +:+ newline);;
    mret None
  else
    t ← allocateMemory Types (mkType TP_ARRAY arraySize elementType);
    mret (Some t).

(** ** Constant management *)

Definition makeIntConstant (value : Z) : M ptr :=
  c ← allocateMemory Constants (mkConstantValue TP_INT (IntMember value));
  mret (Some c).

Definition makeCharConstant (value : ascii) : M ptr :=
  c ← allocateMemory Constants (mkConstantValue TP_CHAR (CharMember value));
  mret (Some c).

(** The block comes straight from [malloc] and its payload starts
    [Undef]; a member is copied only under the tag that selects it. *)
Definition duplicateConstantValue (v : ptr) : M ptr :=
  match v with
  | None => mret None
  | Some _ =>
      c ← load Constants v;
      newVal ← malloc Constants (mkConstantValue (type c) Undef);
      (if bool_decide (type c = TP_INT) then
         store Constants (Some newVal)
           (mkConstantValue (type c)
              (from_option IntMember Undef (intValue c)))
       else if bool_decide (type c = TP_CHAR) then
         store Constants (Some newVal)
           (mkConstantValue (type c)
              (from_option CharMember Undef (charValue c)))
       else mret tt);;
      mret (Some newVal)
  end.

(** ** Object creation *)

(** [MAX_IDENT_LEN] comes from [symtab.h], which is not among the
    sources: the bound is a parameter. *)
Class IdentBound := MAX_IDENT_LEN : nat.

Definition invalidName : string := "Invalid identifier name" +:+ newline.

Section ObjectCreation.
Context `{IdentBound}.

(** [name] is a [const char*]: [None] is [NULL]; a C string holds no
    NUL before its end, so [strlen] is the length of the string. *)
Definition validateName (name : option string) : M unit :=
  match name with
  | None => fprintf_stderr invalidName;; exit1
  | Some n =>
      if bool_decide (MAX_IDENT_LEN ≤ String.length n) then
        fprintf_stderr invalidName;; exit1
      else mret tt
  end.

Definition createBaseObject (name : option string) (kind : ObjectKind)
  : M addr :=
  validateName name;;
  match name with
  | None => fault
  | Some n => allocateMemory Objects (mkObject n kind NoAttrs)
  end.

End ObjectCreation.

(** [obj->xAttrs = allocateMemory(...)] and the assignments of the
    fields of the new block. *)
Definition setAttrs (obj : addr) (a : Attributes) : M unit :=
  o ← load Objects (Some obj);
  store Objects (Some obj) (mkObject (name o) (kind o) a).

(** ** Scope management *)

Definition createScope (owner outer : ptr) : M ptr :=
  scope ← allocateMemory Scopes (mkScope [] owner outer);
  mret (Some scope).

Definition enterBlock (scope : ptr) : M unit :=
  match scope with
  | None => mret tt
  | Some _ =>
      tab ← getSymTab;
      putSymTab (mkSymTab (program tab) scope (globalObjectList tab))
  end.

Definition exitBlock : M unit :=
  tab ← getSymTab;
  cur ← load Scopes (currentScope tab);
  match outer cur with
  | None => mret tt
  | Some _ =>
      putSymTab (mkSymTab (program tab) (outer cur) (globalObjectList tab))
  end.

Section Constructors.
Context `{IdentBound}.

Definition createProgramObject (name : option string) : M ptr :=
  prog ← createBaseObject name OBJ_PROGRAM;
  scope ← createScope (Some prog) None;
  setAttrs prog (progAttrs scope);;
  tab ← getSymTab;
  putSymTab (mkSymTab (Some prog) (currentScope tab) (globalObjectList tab));;
  mret (Some prog).

Definition createVariableObject (name : option string) : M ptr :=
  var ← createBaseObject name OBJ_VARIABLE;
  tab ← getSymTab;
  setAttrs var (varAttrs None (currentScope tab));;
  mret (Some var).

Definition createConstantObject (name : option string) : M ptr :=
  obj ← createBaseObject name OBJ_CONSTANT;
  setAttrs obj (constAttrs None);;
  mret (Some obj).

Definition createTypeObject (name : option string) : M ptr :=
  obj ← createBaseObject name OBJ_TYPE;
  setAttrs obj (typeAttrs None);;
  mret (Some obj).

Definition createFunctionObject (name : option string) : M ptr :=
  obj ← createBaseObject name OBJ_FUNCTION;
  tab ← getSymTab;
  scope ← createScope (Some obj) (currentScope tab);
  setAttrs obj (funcAttrs [] None scope);;
  mret (Some obj).

Definition createProcedureObject (name : option string) : M ptr :=
  obj ← createBaseObject name OBJ_PROCEDURE;
  tab ← getSymTab;
  scope ← createScope (Some obj) (currentScope tab);
  setAttrs obj (procAttrs [] scope);;
  mret (Some obj).

Definition createParameterObject (name : option string) (kind : ParamKind)
    (owner : ptr) : M ptr :=
  obj ← createBaseObject name OBJ_PARAMETER;
  setAttrs obj (paramAttrs kind None owner);;
  mret (Some obj).

End Constructors.

(** ** Utility functions *)

(** The new node goes behind the last one; on the list of carried
    objects this is the walk to the end of the chain. *)
Fixpoint addObject (objList : list ptr) (obj : ptr) : list ptr :=
  match objList with
  | [] => [obj]
  | current :: next => current :: addObject next obj
  end.

(** [strcmp(objList->object->name, name) == 0] is equality of strings. *)
Fixpoint findObject (objList : list ptr) (n : string) : M ptr :=
  match objList with
  | [] => mret None
  | object :: next =>
      o ← load Objects object;
      if bool_decide (name o = n) then mret object
      else findObject next n
  end.

(** ** Symbol table operations *)

(** [addObject(&(symbolTable->globalObjectList), obj)]. *)
Definition addGlobalObject (obj : ptr) : M unit :=
  tab ← getSymTab;
  putSymTab (mkSymTab (program tab) (currentScope tab)
               (addObject (globalObjectList tab) obj)).

(** [addObject(&(owner->funcAttrs->paramList), obj)]: a fault when the
    union of [owner] does not hold a function's block. *)
Definition addFuncParam (owner obj : ptr) : M unit :=
  o ← load Objects owner;
  match attrs o with
  | funcAttrs paramList returnType scope =>
      store Objects owner
        (mkObject (name o) (kind o)
           (funcAttrs (addObject paramList obj) returnType scope))
  | _ => fault
  end.

(** [addObject(&(owner->procAttrs->paramList), obj)]. *)
Definition addProcParam (owner obj : ptr) : M unit :=
  o ← load Objects owner;
  match attrs o with
  | procAttrs paramList scope =>
      store Objects owner
        (mkObject (name o) (kind o)
           (procAttrs (addObject paramList obj) scope))
  | _ => fault
  end.

(** [addObject(&(scope->objList), obj)]. *)
Definition addLocalObject (scope obj : ptr) : M unit :=
  s ← load Scopes scope;
  store Scopes scope (mkScope (addObject (objList s) obj) (owner s) (outer s)).

(** [obj->funcAttrs->returnType = t]. *)
Definition setReturnType (obj t : ptr) : M unit :=
  o ← load Objects obj;
  match attrs o with
  | funcAttrs paramList _ scope =>
      store Objects obj
        (mkObject (name o) (kind o) (funcAttrs paramList t scope))
  | _ => fault
  end.

(** [param->paramAttrs->type = t]. *)
Definition setParamType (param t : ptr) : M unit :=
  o ← load Objects param;
  match attrs o with
  | paramAttrs pkind _ function =>
      store Objects param
        (mkObject (name o) (kind o) (paramAttrs pkind t function))
  | _ => fault
  end.

(** [globalIntType = t] and [globalCharType = t]. *)
Definition setGlobalIntType (t : ptr) : M unit := λ st,
  Ok tt (mkState (symbolTable st) t (globalCharType st)
           (types st) (constants st) (objects st) (scopes st) (stderr st)).

Definition setGlobalCharType (t : ptr) : M unit := λ st,
  Ok tt (mkState (symbolTable st) (globalIntType st) t
           (types st) (constants st) (objects st) (scopes st) (stderr st)).

Section Init.
Context `{IdentBound}.

Definition initSymTab : M unit :=
  (λ st, Ok tt (setSymTab (Some (mkSymTab None None [])) st));;
  t ← makeIntType;
  setGlobalIntType t;;
  t ← makeCharType;
  setGlobalCharType t;;
  (* READC *)
  obj ← createFunctionObject (Some "READC");
  t ← makeCharType;
  setReturnType obj t;;
  addGlobalObject obj;;
  (* READI *)
  obj ← createFunctionObject (Some "READI");
  t ← makeIntType;
  setReturnType obj t;;
  addGlobalObject obj;;
  (* WRITEI *)
  obj ← createProcedureObject (Some "WRITEI");
  param ← createParameterObject (Some "i") PARAM_VALUE obj;
  t ← makeIntType;
  setParamType param t;;
  addProcParam obj param;;
  addGlobalObject obj;;
  (* WRITEC *)
  obj ← createProcedureObject (Some "WRITEC");
  param ← createParameterObject (Some "ch") PARAM_VALUE obj;
  t ← makeCharType;
  setParamType param t;;
  addProcParam obj param;;
  addGlobalObject obj;;
  (* WRITELN *)
  obj ← createProcedureObject (Some "WRITELN");
  addGlobalObject obj.

End Init.

Definition declareObject (obj : ptr) : M unit :=
  match obj with
  | None => mret tt
  | Some _ =>
      tab ← getSymTab;
      match currentScope tab with
      | None => mret tt
      | Some _ =>
          o ← load Objects obj;
          if bool_decide (kind o = OBJ_PARAMETER) then
            cur ← load Scopes (currentScope tab);
            own ← load Objects (owner cur);
            match kind own with
            | OBJ_FUNCTION => addFuncParam (owner cur) obj
            | OBJ_PROCEDURE => addProcParam (owner cur) obj
            | _ => mret tt
            end
          else addLocalObject (currentScope tab) obj
      end
  end.

(** ** The calling protocol *)

(** The seven object constructors. *)
Inductive Constructor :=
| NewProgram | NewVariable | NewConstant | NewType
| NewFunction | NewProcedure | NewParameter.

Definition kindOf (c : Constructor) : ObjectKind :=
  match c with
  | NewProgram => OBJ_PROGRAM
  | NewVariable => OBJ_VARIABLE
  | NewConstant => OBJ_CONSTANT
  | NewType => OBJ_TYPE
  | NewFunction => OBJ_FUNCTION
  | NewProcedure => OBJ_PROCEDURE
  | NewParameter => OBJ_PARAMETER
  end.

(** The constructors that read or write [symbolTable]. *)
Definition usesSymTab (c : Constructor) : bool :=
  match c with
  | NewProgram | NewVariable | NewFunction | NewProcedure => true
  | NewConstant | NewType | NewParameter => false
  end.

(** One call of the interface, with its arguments. *)
Inductive Call :=
| CallMakeIntType
| CallMakeCharType
| CallMakeArrayType (arraySize : Z) (elementType : ptr)
| CallMakeIntConstant (value : Z)
| CallMakeCharConstant (value : ascii)
| CallDuplicateConstantValue (v : ptr)
| CallCreate (c : Constructor) (name : option string)
    (pkind : ParamKind) (owner : ptr)
| CallCreateScope (owner outer : ptr)
| CallEnterBlock (scope : ptr)
| CallExitBlock
| CallDeclareObject (obj : ptr).

(** A pointer argument is [NULL] or the address of a live block. *)
Definition valid {T} (r : region T) (st : State) (p : ptr) : Prop :=
  match p with
  | None => True
  | Some a => a < length (cells r st)
  end.

Definition wellFormedCall (st : State) (c : Call) : Prop :=
  match c with
  | CallMakeArrayType _ elementType => valid Types st elementType
  | CallDuplicateConstantValue v => valid Constants st v
  | CallCreate _ _ _ owner => valid Objects st owner
  | CallCreateScope owner outer =>
      valid Objects st owner ∧ valid Scopes st outer
  | CallEnterBlock scope => valid Scopes st scope
  | CallDeclareObject obj => valid Objects st obj
  | _ => True
  end.

(** The scope a Program, Function or Procedure object owns. *)
Definition bodyScope (o : Object) : ptr :=
  match attrs o with
  | progAttrs scope => scope
  | funcAttrs _ _ scope => scope
  | procAttrs _ scope => scope
  | _ => None
  end.

(** The parameter list of a Function or Procedure object. *)
Definition paramListOf (o : Object) : option (list ptr) :=
  match attrs o with
  | funcAttrs paramList _ _ => Some paramList
  | procAttrs paramList _ => Some paramList
  | _ => None
  end.

(** Following [outer] from the scope at [s] until it is absent; [fuel]
    bounds the number of links followed. *)
Fixpoint outermost (fuel : nat) (scopes : list Scope) (s : addr)
  : option addr :=
  match fuel with
  | 0 => None
  | S fuel =>
      match scopes !! s with
      | None => None
      | Some sc =>
          match outer sc with
          | None => Some s
          | Some o => outermost fuel scopes o
          end
      end
  end.

Section Protocol.
Context `{IdentBound}.

Definition construct (c : Constructor) (name : option string)
    (pkind : ParamKind) (owner : ptr) : M ptr :=
  match c with
  | NewProgram => createProgramObject name
  | NewVariable => createVariableObject name
  | NewConstant => createConstantObject name
  | NewType => createTypeObject name
  | NewFunction => createFunctionObject name
  | NewProcedure => createProcedureObject name
  | NewParameter => createParameterObject name pkind owner
  end.

Definition run (c : Call) : M unit :=
  match c with
  | CallMakeIntType => makeIntType;; mret tt
  | CallMakeCharType => makeCharType;; mret tt
  | CallMakeArrayType n t => makeArrayType n t;; mret tt
  | CallMakeIntConstant v => makeIntConstant v;; mret tt
  | CallMakeCharConstant v => makeCharConstant v;; mret tt
  | CallDuplicateConstantValue v => duplicateConstantValue v;; mret tt
  | CallCreate c name pkind owner => construct c name pkind owner;; mret tt
  | CallCreateScope owner outer => createScope owner outer;; mret tt
  | CallEnterBlock scope => enterBlock scope
  | CallExitBlock => exitBlock
  | CallDeclareObject obj => declareObject obj
  end.

(** The states of a run: [initSymTab] first, then any calls that
    return. *)
Inductive reachable : State → Prop :=
| reachable_init st :
    initSymTab startState = Ok tt st → reachable st
| reachable_call st c st' :
    reachable st → wellFormedCall st c → run c st = Ok tt st' →
    reachable st'.

End Protocol.

(** ** Well-formedness of the scope region *)

(** Every [outer] link points to an older scope, the cursor and every
    body scope are live. *)
Record scopesWf (st : State) : Prop := mkScopesWf {
  wf_outer : ∀ a sc o,
    scopes st !! a = Some sc → outer sc = Some o → o < a;
  wf_cursor : ∀ tab c,
    symbolTable st = Some tab → currentScope tab = Some c →
    c < length (scopes st);
  wf_body : ∀ a o s,
    objects st !! a = Some o → bodyScope o = Some s →
    s < length (scopes st)
}.

(** A constant value of the data model: the tag selects the member that
    is set. *)
Definition constantWf (c : ConstantValue) : Prop :=
  match type c, payload c with
  | TP_INT, IntMember _ => True
  | TP_CHAR, CharMember _ => True
  | _, _ => False
  end.

(** ** Closed forms

    What a constructor leaves behind, written without the monad;
    [construct_run] below proves that the code computes exactly this. *)

Definition makesScope (c : Constructor) : bool :=
  match c with
  | NewProgram | NewFunction | NewProcedure => true
  | NewVariable | NewConstant | NewType | NewParameter => false
  end.

(** The cursor, when there is a table. *)
Definition cursor (st : State) : ptr :=
  match symbolTable st with
  | Some tab => currentScope tab
  | None => None
  end.

Definition newAttrs (c : Constructor) (pkind : ParamKind) (owner : ptr)
    (cur : ptr) (scope : addr) : Attributes :=
  match c with
  | NewProgram => progAttrs (Some scope)
  | NewVariable => varAttrs None cur
  | NewConstant => constAttrs None
  | NewType => typeAttrs None
  | NewFunction => funcAttrs [] None (Some scope)
  | NewProcedure => procAttrs [] (Some scope)
  | NewParameter => paramAttrs pkind None owner
  end.

Definition afterConstruct (c : Constructor) (n : string) (pkind : ParamKind)
    (owner : ptr) (st : State) : State :=
  let p := length (objects st) in
  let s := length (scopes st) in
  mkState
    (match c with
     | NewProgram =>
         (λ tab, mkSymTab (Some p) (currentScope tab) (globalObjectList tab))
           <$> symbolTable st
     | _ => symbolTable st
     end)
    (globalIntType st) (globalCharType st) (types st) (constants st)
    (objects st ++
       [mkObject n (kindOf c) (newAttrs c pkind owner (cursor st) s)])
    (scopes st ++
       (if makesScope c then
          [mkScope [] (Some p)
             (match c with NewProgram => None | _ => cursor st end)]
        else []))
    (stderr st).

(** The state at the [exit(1)] of [validateName]. *)
Definition afterInvalidName (st : State) : State :=
  mkState (symbolTable st) (globalIntType st) (globalCharType st)
    (types st) (constants st) (objects st) (scopes st)
    (stderr st ++ [invalidName]).

(** The singleton's Program object owns the scope at [r]. *)
Definition programRoot (st : State) (r : addr) : Prop :=
  ∃ tab p o,
    symbolTable st = Some tab ∧ program tab = Some p ∧
    objects st !! p = Some o ∧ bodyScope o = Some r.

(** [own] is a Function or a Procedure holding the attribute block of
    its kind, with [params] as its parameter list. *)
Definition ownsParams (own : Object) (params : list ptr) : Prop :=
  match kind own, attrs own with
  | OBJ_FUNCTION, funcAttrs paramList _ _ => paramList = params
  | OBJ_PROCEDURE, procAttrs paramList _ => paramList = params
  | _, _ => False
  end.

(** ** Sample runs *)

#[global] Instance valid_dec {T} (r : region T) st p : Decision (valid r st p).
Proof. destruct p; simpl; apply _. Defined.

#[global] Instance wellFormedCall_dec st c : Decision (wellFormedCall st c).
Proof. destruct c; simpl; apply _. Defined.

Section Runs.
Context `{IdentBound}.

(** A sequence of calls, each checked for well-formed arguments; [None]
    when a call is ill-formed or does not return. *)
Fixpoint runAll (cs : list Call) (st : State) : option State :=
  match cs with
  | [] => Some st
  | c :: cs =>
      if bool_decide (wellFormedCall st c) then
        match run c st with
        | Ok _ st' => runAll cs st'
        | _ => None
        end
      else None
  end.

(** [initSymTab] in a new process, then the calls. *)
Definition session (cs : list Call) : option State :=
  match initSymTab startState with
  | Ok _ st => runAll cs st
  | _ => None
  end.

End Runs.

(** The bound of the sample runs. *)
Definition sampleBound : IdentBound := 15.

(** The state [initSymTab] leaves in a new process whenever the names of
    the five built-ins are below the bound. *)
Definition builtinsState : State :=
  mkState
    (Some (mkSymTab None None [Some 0; Some 1; Some 2; Some 4; Some 6]))
    (Some 0) (Some 1)
    [mkType TP_INT 0 None; mkType TP_CHAR 0 None; mkType TP_CHAR 0 None;
     mkType TP_INT 0 None; mkType TP_INT 0 None; mkType TP_CHAR 0 None]
    []
    [mkObject "READC" OBJ_FUNCTION (funcAttrs [] (Some 2) (Some 0));
     mkObject "READI" OBJ_FUNCTION (funcAttrs [] (Some 3) (Some 1));
     mkObject "WRITEI" OBJ_PROCEDURE (procAttrs [Some 3] (Some 2));
     mkObject "i" OBJ_PARAMETER (paramAttrs PARAM_VALUE (Some 4) (Some 2));
     mkObject "WRITEC" OBJ_PROCEDURE (procAttrs [Some 5] (Some 3));
     mkObject "ch" OBJ_PARAMETER (paramAttrs PARAM_VALUE (Some 5) (Some 4));
     mkObject "WRITELN" OBJ_PROCEDURE (procAttrs [] (Some 4))]
    [mkScope [] (Some 0) None; mkScope [] (Some 1) None;
     mkScope [] (Some 2) None; mkScope [] (Some 4) None;
     mkScope [] (Some 6) None]
    [].

(** A program [PROG] whose block has been entered (object 7, scope 5),
    a function [F] declared in it and entered (object 8, scope 6), and a
    parameter [x] of [F] and a variable [v] created but not declared
    (objects 9 and 10). *)
Definition sampleCalls : list Call :=
  [CallCreate NewProgram (Some "PROG") PARAM_VALUE None;
   CallEnterBlock (Some 5);
   CallCreate NewFunction (Some "F") PARAM_VALUE None;
   CallDeclareObject (Some 8);
   CallEnterBlock (Some 6);
   CallCreate NewParameter (Some "x") PARAM_VALUE (Some 8);
   CallCreate NewVariable (Some "v") PARAM_VALUE None].

Definition inFunctionState : State :=
  Eval vm_compute in
    default startState (session (H:=sampleBound) sampleCalls).

(** The same objects with the cursor back in the block of [PROG]. *)
Definition inProgramState : State :=
  Eval vm_compute in
    default startState
      (session (H:=sampleBound) (sampleCalls ++ [CallExitBlock])).

(** The built-ins plus two constants: the integer 42 at constant 0 and
    the character [a] at constant 1. *)
Definition constantsState : State :=
  Eval vm_compute in
    default startState
      (session (H:=sampleBound)
         [CallMakeIntConstant 42; CallMakeCharConstant "a"%char]).

(** ** Lookup and cursor vocabulary *)

(** The list entry [e] carries a live object whose name is not [n]. *)
Definition otherName (st : State) (n : string) (e : ptr) : Prop :=
  ∃ a o, e = Some a ∧ objects st !! a = Some o ∧ name o ≠ n.

(** The list entry [e] cannot be read: it is [NULL] or not live. *)
Definition unreadable (st : State) (e : ptr) : Prop :=
  match e with
  | None => True
  | Some a => objects st !! a = None
  end.

(** The state with the cursor moved to [s]. *)
Definition withCursor (s : ptr) (st : State) : State :=
  match symbolTable st with
  | Some tab =>
      setSymTab (Some (mkSymTab (program tab) s (globalObjectList tab))) st
  | None => st
  end.

(** [exitBlock] called [n] times in a row. *)
Fixpoint exitBlocks (n : nat) : M unit :=
  match n with
  | 0 => mret tt
  | S n => exitBlock;; exitBlocks n
  end.

(** ** What a call may change *)

(** The attribute block [a'] is [a] with, at most, declarations appended
    to its parameter list. *)
Definition attrsGrow (a a' : Attributes) : Prop :=
  match a, a' with
  | funcAttrs pl rt s, funcAttrs pl' rt' s' =>
      pl `prefix_of` pl' ∧ rt' = rt ∧ s' = s
  | procAttrs pl s, procAttrs pl' s' => pl `prefix_of` pl' ∧ s' = s
  | _, _ => a' = a
  end.

Definition objectGrows (o o' : Object) : Prop :=
  name o' = name o ∧ kind o' = kind o ∧ attrsGrow (attrs o) (attrs o').

Definition scopeGrows (sc sc' : Scope) : Prop :=
  owner sc' = owner sc ∧ outer sc' = outer sc ∧
  objList sc `prefix_of` objList sc'.

(** From [st] to [st'] no block has gone or moved; types and constants
    are as they were; objects and scopes have at most gained
    declarations at the end of their lists. *)
Record grows (st st' : State) : Prop := mkGrows {
  grows_types : types st `prefix_of` types st';
  grows_constants : constants st `prefix_of` constants st';
  grows_objects : ∀ a o,
    objects st !! a = Some o →
    ∃ o', objects st' !! a = Some o' ∧ objectGrows o o';
  grows_scopes : ∀ a sc,
    scopes st !! a = Some sc →
    ∃ sc', scopes st' !! a = Some sc' ∧ scopeGrows sc sc';
  grows_stderr : stderr st `prefix_of` stderr st';
  grows_globalIntType : globalIntType st' = globalIntType st;
  grows_globalCharType : globalCharType st' = globalCharType st
}.

(** The built-in that answers to the name [n], as an entry of the global
    list of [builtinsState]. *)
Definition builtin (n : string) : ptr :=
  if bool_decide ("READC" = n) then Some 0
  else if bool_decide ("READI" = n) then Some 1
  else if bool_decide ("WRITEI" = n) then Some 2
  else if bool_decide ("WRITEC" = n) then Some 4
  else if bool_decide ("WRITELN" = n) then Some 6
  else None.

(** ** Well-formedness of the objects *)

(** The kind an attribute block belongs to. *)
Definition kindOfAttrs (a : Attributes) : option ObjectKind :=
  match a with
  | NoAttrs => None
  | progAttrs _ => Some OBJ_PROGRAM
  | varAttrs _ _ => Some OBJ_VARIABLE
  | constAttrs _ => Some OBJ_CONSTANT
  | typeAttrs _ => Some OBJ_TYPE
  | funcAttrs _ _ _ => Some OBJ_FUNCTION
  | procAttrs _ _ => Some OBJ_PROCEDURE
  | paramAttrs _ _ _ => Some OBJ_PARAMETER
  end.

(** The list entry [e] carries a live object. *)
Definition live (st : State) (e : ptr) : Prop :=
  match e with
  | Some a => a < length (objects st)
  | None => False
  end.

(** The tag of every object agrees with its attribute block, the scope
    an object owns points back to it, every owner is [NULL] or live, and
    every entry of every list is live. *)
Record heapWf (st : State) : Prop := mkHeapWf {
  wf_kind : ∀ a o,
    objects st !! a = Some o → kindOfAttrs (attrs o) = Some (kind o);
  wf_back : ∀ a o s,
    objects st !! a = Some o → bodyScope o = Some s →
    ∃ sc, scopes st !! s = Some sc ∧ owner sc = Some a;
  wf_owner : ∀ a sc,
    scopes st !! a = Some sc → valid Objects st (owner sc);
  wf_locals : ∀ a sc,
    scopes st !! a = Some sc → Forall (live st) (objList sc);
  wf_params : ∀ a o pl,
    objects st !! a = Some o → paramListOf o = Some pl →
    Forall (live st) pl;
  wf_globals : ∀ tab,
    symbolTable st = Some tab → Forall (live st) (globalObjectList tab)
}.

(** ** Types in reachable states *)


(** ** Memory cleanup

    The cleanup functions read the state and free blocks.  The blocks
    freed so far are kept, per region and in the order of the calls of
    [free], beside the state; reading or freeing a block that is in
    there, or that never was live, is undefined behaviour.  The nodes of
    a list and the attribute block of an object are stored inline (see
    the head of the file), so [free(objList)] and [free(obj->xAttrs)]
    leave no trace of their own.  The recursion of the C code is bounded
    by [fuel]. *)

Record Freed := mkFreed {
  freedTypes : list nat;
  freedConstants : list nat;
  freedObjects : list nat;
  freedScopes : list nat
}.

Definition noneFreed : Freed := mkFreed [] [] [] [].

Inductive cleanup (A : Type) :=
| Released (a : A)
| Undefined
| NoFuel.
Arguments Released {A} a.
Arguments Undefined {A}.
Arguments NoFuel {A}.

(** Sequencing of two cleanup steps. *)
Definition andThen {A B} (r : cleanup A) (k : A → cleanup B) : cleanup B :=
  match r with
  | Released a => k a
  | Undefined => Undefined
  | NoFuel => NoFuel
  end.

(** [free(p)] for a live block of one region. *)
Definition freeTypeBlock (t : addr) (f : Freed) : cleanup Freed :=
  if bool_decide (t ∈ freedTypes f) then Undefined
  else Released (mkFreed (freedTypes f ++ [t]) (freedConstants f)
                   (freedObjects f) (freedScopes f)).

Definition freeConstantBlock (c : addr) (f : Freed) : cleanup Freed :=
  if bool_decide (c ∈ freedConstants f) then Undefined
  else Released (mkFreed (freedTypes f) (freedConstants f ++ [c])
                   (freedObjects f) (freedScopes f)).

Definition freeObjectBlock (a : addr) (f : Freed) : cleanup Freed :=
  if bool_decide (a ∈ freedObjects f) then Undefined
  else Released (mkFreed (freedTypes f) (freedConstants f)
                   (freedObjects f ++ [a]) (freedScopes f)).

Definition freeScopeBlock (s : addr) (f : Freed) : cleanup Freed :=
  if bool_decide (s ∈ freedScopes f) then Undefined
  else Released (mkFreed (freedTypes f) (freedConstants f)
                   (freedObjects f) (freedScopes f ++ [s])).

Definition freeConstantValue (st : State) (value : ptr) (f : Freed)
  : cleanup Freed :=
  match value with
  | None => Released f
  | Some c =>
      match constants st !! c with
      | Some _ => freeConstantBlock c f
      | None => Undefined
      end
  end.

Fixpoint freeType (fuel : nat) (st : State) (type : ptr) (f : Freed)
  : cleanup Freed :=
  match fuel with
  | 0 => NoFuel
  | S fuel =>
      match type with
      | None => Released f
      | Some t =>
          match types st !! t with
          | None => Undefined
          | Some ty =>
              if bool_decide (t ∈ freedTypes f) then Undefined
              else
                andThen
                  (if bool_decide (typeClass ty = TP_ARRAY)
                   then freeType fuel st (elementType ty) f
                   else Released f)
                  (freeTypeBlock t)
          end
      end
  end.

(** [freeObjectList] over a function that frees one object: the rest of
    the chain first, then the object of the node. *)
Fixpoint freeEntries (freeOne : ptr → Freed → cleanup Freed)
    (objList : list ptr) (f : Freed) : cleanup Freed :=
  match objList with
  | [] => Released f
  | object :: next =>
      andThen (freeEntries freeOne next f) (freeOne object)
  end.

(** [freeScope] over a function that frees one object. *)
Definition freeScopeWith (freeOne : ptr → Freed → cleanup Freed)
    (st : State) (scope : ptr) (f : Freed) : cleanup Freed :=
  match scope with
  | None => Released f
  | Some s =>
      match scopes st !! s with
      | None => Undefined
      | Some sc =>
          if bool_decide (s ∈ freedScopes f) then Undefined
          else andThen (freeEntries freeOne (objList sc) f) (freeScopeBlock s)
      end
  end.

Fixpoint freeObject (fuel : nat) (st : State) (obj : ptr) (f : Freed)
  : cleanup Freed :=
  match fuel with
  | 0 => NoFuel
  | S fuel =>
      match obj with
      | None => Released f
      | Some a =>
          match objects st !! a with
          | None => Undefined
          | Some o =>
              if bool_decide (a ∈ freedObjects f) then Undefined
              else
                andThen
                  (match kind o, attrs o with
                   | OBJ_CONSTANT, constAttrs value =>
                       freeConstantValue st value f
                   | OBJ_TYPE, typeAttrs actualType =>
                       freeType fuel st actualType f
                   | OBJ_VARIABLE, varAttrs vtype _ =>
                       freeType fuel st vtype f
                   | OBJ_FUNCTION, funcAttrs paramList returnType scope =>
                       andThen (freeType fuel st returnType f) (λ f,
                       andThen (freeEntries (freeObject fuel st) paramList f)
                         (freeScopeWith (freeObject fuel st) st scope))
                   | OBJ_PROCEDURE, procAttrs paramList scope =>
                       andThen (freeEntries (freeObject fuel st) paramList f)
                         (freeScopeWith (freeObject fuel st) st scope)
                   | OBJ_PROGRAM, progAttrs scope =>
                       freeScopeWith (freeObject fuel st) st scope f
                   | OBJ_PARAMETER, paramAttrs _ ptype _ =>
                       freeType fuel st ptype f
                   | _, _ => Undefined
                   end)
                  (freeObjectBlock a)
          end
      end
  end.

Definition freeObjectList (fuel : nat) (st : State) (objList : list ptr)
    (f : Freed) : cleanup Freed :=
  freeEntries (freeObject fuel st) objList f.

Definition freeScope (fuel : nat) (st : State) (scope : ptr) (f : Freed)
  : cleanup Freed :=
  freeScopeWith (freeObject fuel st) st scope f.

(** [cleanSymTab]: the Program, the global list, the two global types,
    then the table itself, after which [symbolTable] is [NULL]. *)
Definition cleanSymTab (fuel : nat) (st : State) (f : Freed)
  : cleanup (State * Freed) :=
  match symbolTable st with
  | None => Released (st, f)
  | Some tab =>
      andThen (freeObject fuel st (program tab) f) (λ f,
      andThen (freeObjectList fuel st (globalObjectList tab) f) (λ f,
      andThen (freeType fuel st (globalIntType st) f) (λ f,
      andThen (freeType fuel st (globalCharType st) f) (λ f,
      Released (setSymTab None st, f)))))
  end.


(** A cleanup step that only adds to the objects freed. *)
Definition keepsObjects (g : Freed → cleanup Freed) : Prop :=
  ∀ f f1, g f = Released f1 → freedObjects f ⊆ freedObjects f1.

(** ** The scope an object was created in

    [currentScope] at the time of a constructor call is not kept
    anywhere for a Function or a Procedure, so a run is followed with a
    record of it: [born a] is the cursor at the call that made object
    [a].  The objects made inside [initSymTab] are made with the cursor
    [NULL] ([initSymTab] sets it so, and changes it nowhere). *)

Definition recordBirth (c : Call) (st : State) (born : addr → ptr)
  : addr → ptr :=
  match c with
  | CallCreate _ _ _ _ =>
      λ a, if bool_decide (a = length (objects st)) then cursor st
           else born a
  | _ => born
  end.

Section Births.
Context `{IdentBound}.

(** [reachable], with the record of births. *)
Inductive reachableBorn : State → (addr → ptr) → Prop :=
| reachableBorn_init st :
    initSymTab startState = Ok tt st → reachableBorn st (λ _, None)
| reachableBorn_call st born c st' :
    reachableBorn st born → wellFormedCall st c → run c st = Ok tt st' →
    reachableBorn st' (recordBirth c st born).

Fixpoint runAllBorn (cs : list Call) (st : State) (born : addr → ptr)
  : option (State * (addr → ptr)) :=
  match cs with
  | [] => Some (st, born)
  | c :: cs =>
      if bool_decide (wellFormedCall st c) then
        match run c st with
        | Ok _ st' => runAllBorn cs st' (recordBirth c st born)
        | _ => None
        end
      else None
  end.

Definition sessionBorn (cs : list Call) : option (State * (addr → ptr)) :=
  match initSymTab startState with
  | Ok _ st => runAllBorn cs st (λ _, None)
  | _ => None
  end.

End Births.

(** The body scope of every Function and Procedure has, as its [outer],
    the scope the object was born in. *)
Definition linked (born : addr → ptr) (st : State) : Prop :=
  ∀ f o body,
    objects st !! f = Some o →
    kind o = OBJ_FUNCTION ∨ kind o = OBJ_PROCEDURE →
    bodyScope o = Some body →
    ∃ sb, scopes st !! body = Some sb ∧ outer sb = born f.

(** The sample run that ends in [inFunctionState], with its births. *)
Definition sampleSession : State * (addr → ptr) :=
  Eval vm_compute in
    default (startState, λ _, None)
      (sessionBorn (H:=sampleBound) sampleCalls).

(** * Properties *)

(** ** Running the monad *)

Ltac unfold_M :=
  unfold mbind, M_bind, mret, M_ret, getSymTab, putSymTab, load, store,
    allocateMemory, malloc, fprintf_stderr, exit1, fault in *;
  cbn [cells set_cells Types Constants Objects Scopes] in *.

Lemma bind_Ok {A B} (m : M A) (f : A → M B) st b st' :
  (m ≫= f) st = Ok b st' ↔ ∃ a st1, m st = Ok a st1 ∧ f a st1 = Ok b st'.
Proof.
  unfold mbind, M_bind. split.
  - destruct (m st) as [a st1| |]; [eauto | done | done].
  - intros (a & st1 & -> & Hf). done.
Qed.

Lemma bind_run {A B} (m : M A) (f : A → M B) st a st1 :
  m st = Ok a st1 → (m ≫= f) st = f a st1.
Proof. unfold mbind, M_bind. by intros ->. Qed.

Lemma addObject_app objList obj : addObject objList obj = objList ++ [obj].
Proof. induction objList as [|x l IH]; simpl; [done | by rewrite IH]. Qed.

Lemma lookup_snoc {T} (l : list T) (x : T) : (l ++ [x]) !! length l = Some x.
Proof. rewrite lookup_app_r by lia. by rewrite Nat.sub_diag. Qed.

Lemma insert_snoc {T} (l : list T) (x y : T) :
  <[length l:=y]> (l ++ [x]) = l ++ [y].
Proof.
  rewrite <- (Nat.add_0_r (length l)) at 1. by rewrite insert_app_r.
Qed.

Lemma lookup_fresh {T} (l : list T) : l !! length l = None.
Proof. apply lookup_ge_None. lia. Qed.

(** ** Type management *)

(** C2: with a positive size and a present element type,
    [makeArrayType] returns a new [TP_ARRAY] type carrying exactly that
    size and that element type; with a size that is not positive or an
    absent element type it returns [NULL] and the type region is left as
    it was. *)
Theorem makeArrayType_spec (size : Z) (T : ptr) (st : State) :
  ((0 < size)%Z → T ≠ None →
     ∃ t st',
       makeArrayType size T st = Ok (Some t) st' ∧
       types st !! t = None ∧
       types st' = types st ++ [mkType TP_ARRAY size T] ∧
       types st' !! t = Some (mkType TP_ARRAY size T)) ∧
  ((size ≤ 0)%Z ∨ T = None →
     ∃ st', makeArrayType size T st = Ok None st' ∧ types st' = types st).
Proof.
  split.
  - intros Hsize HT. unfold makeArrayType.
    rewrite bool_decide_eq_false_2 by lia.
    rewrite bool_decide_eq_false_2 by done. simpl. unfold_M.
    eexists _, _. split; [reflexivity|]. simpl.
    auto using lookup_fresh, lookup_snoc.
  - intros Hbad. unfold makeArrayType.
    assert (bool_decide (size ≤ 0)%Z || bool_decide (T = None) = true)
      as ->.
    { apply orb_true_iff.
      destruct Hbad as [Hs | ->]; [left | right];
        by apply bool_decide_eq_true_2. }
    unfold_M. eauto.
Qed.

(** ** The cursor *)

Lemma enterBlock_NULL st : enterBlock None st = Ok tt st.
Proof. done. Qed.

Lemma enterBlock_scope s st tab :
  symbolTable st = Some tab →
  enterBlock (Some s) st =
    Ok tt (setSymTab
             (Some (mkSymTab (program tab) (Some s) (globalObjectList tab)))
             st).
Proof.
  intros Htab. unfold enterBlock. unfold_M.
  rewrite Htab. simpl. by rewrite Htab.
Qed.

Lemma exitBlock_outer st tab c sc o :
  symbolTable st = Some tab → currentScope tab = Some c →
  scopes st !! c = Some sc → outer sc = Some o →
  exitBlock st =
    Ok tt (setSymTab
             (Some (mkSymTab (program tab) (Some o) (globalObjectList tab)))
             st).
Proof.
  intros Htab Hcur Hsc Ho. unfold exitBlock. unfold_M.
  rewrite Htab, Hcur, Hsc, Ho. simpl. by rewrite Htab.
Qed.

Lemma exitBlock_root st tab c sc :
  symbolTable st = Some tab → currentScope tab = Some c →
  scopes st !! c = Some sc → outer sc = None →
  exitBlock st = Ok tt st.
Proof.
  intros Htab Hcur Hsc Ho. unfold exitBlock. unfold_M.
  by rewrite Htab, Hcur, Hsc, Ho.
Qed.

Lemma exitBlock_unset st :
  (∀ tab, symbolTable st = Some tab → currentScope tab = None) →
  exitBlock st = Fault.
Proof.
  intros Hunset. unfold exitBlock. unfold_M.
  destruct (symbolTable st) as [tab|] eqn:Htab; [|done].
  by rewrite (Hunset tab).
Qed.

Lemma exitBlock_returns st st' :
  exitBlock st = Ok tt st' →
  ∃ tab c sc,
    symbolTable st = Some tab ∧ currentScope tab = Some c ∧
    scopes st !! c = Some sc.
Proof.
  unfold exitBlock. unfold_M. intros Hrun.
  destruct (symbolTable st) as [tab|]; [|done].
  destruct (currentScope tab) as [c|] eqn:Hcur; [|done].
  destruct (scopes st !! c) as [sc|] eqn:Hsc; [|done]. by exists tab, c, sc.
Qed.

(** C6: [enterBlock] moves the cursor to a present scope and does
    nothing for [NULL]; [exitBlock], with the cursor on a live scope,
    moves it to that scope's [outer] when there is one and does nothing
    when there is none.  Nothing but the cursor changes. *)
Theorem enterBlock_exitBlock_spec (st : State) (tab : SymTab) :
  symbolTable st = Some tab →
  enterBlock None st = Ok tt st ∧
  (∀ s, enterBlock (Some s) st =
          Ok tt (setSymTab
                   (Some (mkSymTab (program tab) (Some s)
                            (globalObjectList tab))) st)) ∧
  (∀ c sc, currentScope tab = Some c → scopes st !! c = Some sc →
     match outer sc with
     | Some o =>
         exitBlock st =
           Ok tt (setSymTab
                    (Some (mkSymTab (program tab) (Some o)
                             (globalObjectList tab))) st)
     | None => exitBlock st = Ok tt st
     end).
Proof.
  intros Htab. split; [apply enterBlock_NULL|]. split.
  - intros s. by apply enterBlock_scope.
  - intros c sc Hcur Hsc. destruct (outer sc) as [o|] eqn:Ho.
    + by eapply exitBlock_outer.
    + by eapply exitBlock_root.
Qed.

(** ** Declarations that are dropped *)

(** C7: [declareObject] on [NULL], or with the cursor unset, returns
    and leaves the whole state (the lists, the regions, [stderr]) as it
    was. *)
Theorem declareObject_noop (st : State) :
  declareObject None st = Ok tt st ∧
  (∀ obj tab,
     symbolTable st = Some tab → currentScope tab = None →
     declareObject obj st = Ok tt st).
Proof.
  split; [done|]. intros [o|] tab Htab Hcur; [|done].
  unfold declareObject. unfold_M. by rewrite Htab, Hcur.
Qed.

(** ** Constants *)

Lemma duplicateConstantValue_run st v c :
  constants st !! v = Some c → constantWf c →
  duplicateConstantValue (Some v) st =
    Ok (Some (length (constants st)))
       (set_cells Constants (constants st ++ [c]) st).
Proof.
  intros Hv Hwf. unfold duplicateConstantValue. unfold_M. rewrite Hv.
  destruct c as [[] []]; try done; simpl;
    by rewrite lookup_snoc, insert_snoc.
Qed.

(** C9: the duplicate of a constant is a new block with the tag and the
    payload of the original; writing to either block afterwards leaves
    the other as it was; the duplicate of [NULL] is [NULL]. *)
Theorem duplicateConstantValue_independent (st : State) :
  duplicateConstantValue None st = Ok None st ∧
  (∀ v c,
     constants st !! v = Some c → constantWf c →
     ∃ d st',
       duplicateConstantValue (Some v) st = Ok (Some d) st' ∧
       d ≠ v ∧ constants st !! d = None ∧
       (∃ c', constants st' !! d = Some c' ∧
              type c' = type c ∧ payload c' = payload c) ∧
       constants st' !! v = Some c ∧
       (∀ x, ∃ st'',
          store Constants (Some d) x st' = Ok tt st'' ∧
          constants st'' !! d = Some x ∧ constants st'' !! v = Some c) ∧
       (∀ x, ∃ st'',
          store Constants (Some v) x st' = Ok tt st'' ∧
          constants st'' !! v = Some x ∧ constants st'' !! d = Some c)).
Proof.
  split; [done|]. intros v c Hv Hwf.
  pose proof (lookup_lt_Some _ _ _ Hv) as Hlt.
  eexists _, _. split; [by apply duplicateConstantValue_run|]. simpl.
  assert ((constants st ++ [c]) !! v = Some c) as Hv'
    by (by rewrite lookup_app_l).
  split; [lia|]. split; [apply lookup_fresh|].
  split; [exists c; by rewrite lookup_snoc|]. split; [done|].
  split; intros x; unfold_M.
  - rewrite lookup_snoc. eexists. split; [reflexivity|]. simpl.
    rewrite list_lookup_insert_eq by (rewrite length_app; simpl; lia).
    by rewrite list_lookup_insert_ne by lia.
  - rewrite Hv'. eexists. split; [reflexivity|]. simpl.
    rewrite list_lookup_insert_eq by (rewrite length_app; simpl; lia).
    rewrite list_lookup_insert_ne by lia. split; [done | apply lookup_snoc].
Qed.

(** ** Object creation *)

Section ConstructorFacts.
Context `{IdentBound}.

Lemma validateName_ok n st :
  String.length n < MAX_IDENT_LEN → validateName (Some n) st = Ok tt st.
Proof.
  intros Hlen. unfold validateName.
  by rewrite bool_decide_eq_false_2 by lia.
Qed.

Lemma validateName_long n st :
  MAX_IDENT_LEN ≤ String.length n →
  validateName (Some n) st = Exited (afterInvalidName st).
Proof.
  intros Hlen. unfold validateName.
  by rewrite bool_decide_eq_true_2 by lia.
Qed.

Lemma validateName_NULL st :
  validateName None st = Exited (afterInvalidName st).
Proof. done. Qed.

Lemma createBaseObject_ok n k st :
  String.length n < MAX_IDENT_LEN →
  createBaseObject (Some n) k st =
    Ok (length (objects st))
       (set_cells Objects (objects st ++ [mkObject n k NoAttrs]) st).
Proof.
  intros Hlen. unfold createBaseObject.
  by rewrite (bind_run _ _ _ _ _ (validateName_ok _ _ Hlen)).
Qed.

Lemma createBaseObject_exit name k st :
  name = None ∨ (∃ n, name = Some n ∧ MAX_IDENT_LEN ≤ String.length n) →
  createBaseObject name k st = Exited (afterInvalidName st).
Proof.
  intros [-> | (n & -> & Hlen)]; unfold createBaseObject, mbind, M_bind.
  - by rewrite validateName_NULL.
  - by rewrite validateName_long.
Qed.

Ltac unfold_constructors :=
  unfold createProgramObject, createVariableObject, createConstantObject,
    createTypeObject, createFunctionObject, createProcedureObject,
    createParameterObject.

(** A constructor given a name below the bound (and a table, when it
    uses one) returns the first unused object address and leaves
    [afterConstruct]. *)
Lemma construct_run c n pk owner st :
  String.length n < MAX_IDENT_LEN →
  (usesSymTab c = true → is_Some (symbolTable st)) →
  construct c (Some n) pk owner st =
    Ok (Some (length (objects st))) (afterConstruct c n pk owner st).
Proof.
  intros Hlen Htab. unfold afterConstruct, cursor.
  destruct c; simpl in *; unfold_constructors;
    rewrite (bind_run _ _ _ _ _ (createBaseObject_ok _ _ _ Hlen));
    unfold setAttrs, createScope; unfold_M; simpl.
  all: try (destruct Htab as [tab Ht]; [done|]; rewrite Ht).
  all: repeat
         (progress (rewrite ?lookup_snoc, ?insert_snoc, ?app_nil_r; simpl)).
  all: done.
Qed.

(** An absent or too long name ends the process inside
    [validateName], before anything is allocated. *)
Lemma construct_exit c name pk owner st :
  name = None ∨ (∃ n, name = Some n ∧ MAX_IDENT_LEN ≤ String.length n) →
  construct c name pk owner st = Exited (afterInvalidName st).
Proof.
  intros Hbad. destruct c; simpl; unfold_constructors;
    unfold mbind at 1, M_bind; by rewrite createBaseObject_exit.
Qed.

(** Before [initSymTab] the constructors that touch the table fault. *)
Lemma construct_fault c n pk owner st :
  String.length n < MAX_IDENT_LEN →
  usesSymTab c = true → symbolTable st = None →
  construct c (Some n) pk owner st = Fault.
Proof.
  intros Hlen Huses Htab.
  destruct c; try done; simpl; unfold_constructors;
    rewrite (bind_run _ _ _ _ _ (createBaseObject_ok _ _ _ Hlen));
    unfold setAttrs, createScope; unfold_M; simpl; rewrite ?Htab; try done.
  all: repeat
         (progress (rewrite ?lookup_snoc, ?insert_snoc, ?Htab; simpl)).
  all: done.
Qed.

(** Every return of a constructor is the one of [construct_run]. *)
Lemma construct_Ok_inv c name pk owner st r st' :
  construct c name pk owner st = Ok r st' →
  ∃ n, name = Some n ∧ String.length n < MAX_IDENT_LEN ∧
       (usesSymTab c = true → is_Some (symbolTable st)) ∧
       r = Some (length (objects st)) ∧
       st' = afterConstruct c n pk owner st.
Proof.
  intros Hrun. destruct name as [n|].
  - destruct (decide (String.length n < MAX_IDENT_LEN)) as [Hlen|Hlen].
    + destruct (usesSymTab c) eqn:Huses.
      * destruct (symbolTable st) as [tab|] eqn:Htab.
        -- rewrite construct_run in Hrun by (rewrite ?Htab; eauto).
           exists n. naive_solver.
        -- by rewrite construct_fault in Hrun.
      * rewrite construct_run in Hrun by (rewrite ?Huses; done).
        exists n. naive_solver.
    + rewrite construct_exit in Hrun; [done|]. right. exists n.
      split; [done | lia].
  - rewrite construct_exit in Hrun; [done | by left].
Qed.

End ConstructorFacts.

Section ObjectTheorems.
Context `{IdentBound}.

(** C3, as the code has it: every constructor ends the process, with no
    object allocated, when the name is absent or as long as
    [MAX_IDENT_LEN] or longer; for every name shorter than the bound,
    the empty name included, it returns a new object carrying exactly
    that name and the kind of the constructor (the table must exist for
    the four constructors that use it). *)
Theorem construct_name_spec (c : Constructor) (nm : option string)
    (pk : ParamKind) (owner : ptr) (st : State) :
  (nm = None ∨ (∃ n, nm = Some n ∧ MAX_IDENT_LEN ≤ String.length n) →
     ∃ st', construct c nm pk owner st = Exited st' ∧
            objects st' = objects st) ∧
  (∀ n, nm = Some n → String.length n < MAX_IDENT_LEN →
     (usesSymTab c = true → is_Some (symbolTable st)) →
     ∃ p st' o,
       construct c nm pk owner st = Ok (Some p) st' ∧
       objects st !! p = None ∧ objects st' !! p = Some o ∧
       name o = n ∧ kind o = kindOf c).
Proof.
  split.
  - intros Hbad. exists (afterInvalidName st). by rewrite construct_exit.
  - intros n -> Hlen Htab. eexists _, _, _.
    split; [by apply construct_run|]. simpl.
    split; [apply lookup_fresh|]. by rewrite lookup_snoc.
Qed.

(** C5: [createProgramObject] with a valid name registers the new
    object as the singleton's [program] and gives it a new scope with
    no [outer], owned by it, while the cursor stays where it was; and
    no constructor, whatever it returns, moves the cursor. *)
Theorem createProgramObject_spec (n : string) (st : State) (tab : SymTab) :
  String.length n < MAX_IDENT_LEN → symbolTable st = Some tab →
  (∃ p s st',
     createProgramObject (Some n) st = Ok (Some p) st' ∧
     objects st !! p = None ∧ scopes st !! s = None ∧
     symbolTable st' =
       Some (mkSymTab (Some p) (currentScope tab) (globalObjectList tab)) ∧
     objects st' !! p = Some (mkObject n OBJ_PROGRAM (progAttrs (Some s))) ∧
     scopes st' !! s = Some (mkScope [] (Some p) None)) ∧
  (∀ c nm pk owner st0,
     match construct c nm pk owner st0 with
     | Ok _ st' | Exited st' =>
         currentScope <$> symbolTable st' = currentScope <$> symbolTable st0
     | Fault => True
     end).
Proof.
  intros Hlen Htab. split.
  - eexists _, _, _.
    split; [apply (construct_run NewProgram n PARAM_VALUE None); eauto|].
    simpl. rewrite Htab, !lookup_snoc.
    repeat split; apply lookup_fresh.
  - clear. intros c nm pk owner st0.
    destruct (construct c nm pk owner st0) as [r st'|st'|] eqn:Hrun;
      [| |done].
    + apply construct_Ok_inv in Hrun as (n & _ & _ & _ & _ & ->).
      destruct c; simpl; try done. by destruct (symbolTable st0).
    + destruct nm as [n|].
      * destruct (decide (String.length n < MAX_IDENT_LEN)) as [Hlen|Hlen].
        -- destruct (usesSymTab c) eqn:Huses.
           ++ destruct (symbolTable st0) as [tab0|] eqn:Htab.
              ** rewrite construct_run in Hrun by (rewrite ?Htab; eauto).
                 done.
              ** by rewrite construct_fault in Hrun.
           ++ by rewrite construct_run in Hrun by (rewrite ?Huses; done).
        -- rewrite construct_exit in Hrun
             by (right; exists n; split; [done | lia]).
           by injection Hrun as <-.
      * rewrite construct_exit in Hrun by (by left). by injection Hrun as <-.
Qed.

End ObjectTheorems.

(** ** Declaration routing *)

Section Routing.
Variables (st : State) (tab : SymTab) (cur : addr) (sc : Scope).
Variables (obj : addr) (o : Object).
Hypothesis Htab : symbolTable st = Some tab.
Hypothesis Hcur : currentScope tab = Some cur.
Hypothesis Hsc : scopes st !! cur = Some sc.
Hypothesis Hobj : objects st !! obj = Some o.

Lemma declareObject_local :
  kind o ≠ OBJ_PARAMETER →
  declareObject (Some obj) st =
    Ok tt (set_cells Scopes
             (<[cur:=mkScope (objList sc ++ [Some obj]) (owner sc) (outer sc)]>
                (scopes st)) st).
Proof using Htab Hcur Hsc Hobj.
  intros Hkind. unfold declareObject, addLocalObject. unfold_M.
  rewrite Htab, Hcur, Hobj. rewrite bool_decide_eq_false_2 by done.
  rewrite Hsc. simpl. by rewrite Hsc, addObject_app, Htab.
Qed.

Lemma declareObject_func w own params rt s :
  kind o = OBJ_PARAMETER →
  owner sc = Some w → objects st !! w = Some own →
  kind own = OBJ_FUNCTION → attrs own = funcAttrs params rt s →
  declareObject (Some obj) st =
    Ok tt (set_cells Objects
             (<[w:=mkObject (name own) (kind own)
                     (funcAttrs (params ++ [Some obj]) rt s)]>
                (objects st)) st).
Proof using Htab Hcur Hsc Hobj.
  intros Hkind Hw Hown Hfun Hattrs.
  unfold declareObject, addFuncParam. unfold_M.
  rewrite Htab, Hcur, Hobj. rewrite bool_decide_eq_true_2 by done.
  rewrite Hsc, Hw, Hown, Hfun. simpl.
  rewrite Hown, Hattrs. simpl. by rewrite Hown, addObject_app, ?Htab, ?Hfun.
Qed.

Lemma declareObject_proc w own params s :
  kind o = OBJ_PARAMETER →
  owner sc = Some w → objects st !! w = Some own →
  kind own = OBJ_PROCEDURE → attrs own = procAttrs params s →
  declareObject (Some obj) st =
    Ok tt (set_cells Objects
             (<[w:=mkObject (name own) (kind own)
                     (procAttrs (params ++ [Some obj]) s)]>
                (objects st)) st).
Proof using Htab Hcur Hsc Hobj.
  intros Hkind Hw Hown Hfun Hattrs.
  unfold declareObject, addProcParam. unfold_M.
  rewrite Htab, Hcur, Hobj. rewrite bool_decide_eq_true_2 by done.
  rewrite Hsc, Hw, Hown, Hfun. simpl.
  rewrite Hown, Hattrs. simpl. by rewrite Hown, addObject_app, ?Htab, ?Hfun.
Qed.

Lemma declareObject_dropped w own :
  kind o = OBJ_PARAMETER →
  owner sc = Some w → objects st !! w = Some own →
  kind own ≠ OBJ_FUNCTION → kind own ≠ OBJ_PROCEDURE →
  declareObject (Some obj) st = Ok tt st.
Proof using Htab Hcur Hsc Hobj.
  intros Hkind Hw Hown Hfun Hproc.
  unfold declareObject. unfold_M.
  rewrite Htab, Hcur, Hobj. rewrite bool_decide_eq_true_2 by done.
  rewrite Hsc, Hw, Hown. by destruct (kind own).
Qed.

(** C1, as the code has it.  With the cursor on a live scope and [obj]
    a live object:
    - an object that is not a Parameter is appended at the end of the
      cursor scope's local list, and no object (so no parameter list)
      changes;
    - a Parameter, when the owner of the cursor scope is a Function or a
      Procedure, is appended at the end of that owner's parameter list,
      and no scope (so no local list) changes;
    - a Parameter, when the owner is of any other kind, is dropped: the
      call returns and the state is as before. *)
Theorem declareObject_routing :
  (kind o ≠ OBJ_PARAMETER →
     ∃ st' sc',
       declareObject (Some obj) st = Ok tt st' ∧
       scopes st' = <[cur:=sc']> (scopes st) ∧
       scopes st' !! cur = Some sc' ∧
       sc' = mkScope (objList sc ++ [Some obj]) (owner sc) (outer sc) ∧
       objects st' = objects st) ∧
  (kind o = OBJ_PARAMETER →
     ∀ w own params,
       owner sc = Some w → objects st !! w = Some own →
       ownsParams own params →
       ∃ st' own',
         declareObject (Some obj) st = Ok tt st' ∧
         objects st' = <[w:=own']> (objects st) ∧
         objects st' !! w = Some own' ∧
         ownsParams own' (params ++ [Some obj]) ∧
         name own' = name own ∧ bodyScope own' = bodyScope own ∧
         scopes st' = scopes st) ∧
  (kind o = OBJ_PARAMETER →
     ∀ w own,
       owner sc = Some w → objects st !! w = Some own →
       kind own ≠ OBJ_FUNCTION → kind own ≠ OBJ_PROCEDURE →
       declareObject (Some obj) st = Ok tt st).
Proof using Htab Hcur Hsc Hobj.
  split; [|split].
  - intros Hkind. eexists _, _. split; [by apply declareObject_local|].
    simpl. split; [done|]. split; [|done].
    apply list_lookup_insert_eq. by eapply lookup_lt_Some.
  - intros Hkind w own params Hw Hown Hparams.
    pose proof (lookup_lt_Some _ _ _ Hown) as Hlt.
    unfold ownsParams in Hparams.
    destruct (kind own) eqn:Hk; try done;
      destruct (attrs own) as [| | | | |pl rt s|pl s|] eqn:Hattrs;
      try done; subst pl; eexists _, _.
    + split; [by eapply declareObject_func|]. simpl. split; [done|].
      split; [by apply list_lookup_insert_eq|].
      unfold ownsParams, bodyScope. simpl. by rewrite Hk, Hattrs.
    + split; [by eapply declareObject_proc|]. simpl. split; [done|].
      split; [by apply list_lookup_insert_eq|].
      unfold ownsParams, bodyScope. simpl. by rewrite Hk, Hattrs.
  - intros Hkind w own. by apply declareObject_dropped.
Qed.

End Routing.

(** ** Bootstrap *)

(** The longest built-in name, [WRITELN], has seven characters. *)
Lemma initSymTab_run (bound : IdentBound) :
  7 < bound → initSymTab startState = Ok tt builtinsState.
Proof.
  intros Hbound. do 8 (destruct bound as [|bound]; [lia|]). by vm_compute.
Qed.

Lemma initSymTab_exit (bound : IdentBound) :
  bound ≤ 7 → ∃ st, initSymTab startState = Exited st.
Proof.
  intros Hbound.
  do 8 (destruct bound as [|bound]; [vm_compute; eauto|]). lia.
Qed.

Section Bootstrap.
Context `{IdentBound}.

Lemma initSymTab_Ok_inv st :
  initSymTab startState = Ok tt st → st = builtinsState.
Proof.
  intros Hrun. destruct (decide (7 < MAX_IDENT_LEN)) as [Hb|Hb].
  - rewrite initSymTab_run in Hrun by done. by injection Hrun.
  - destruct (initSymTab_exit H) as [st' Hexit]; [unfold MAX_IDENT_LEN in Hb; lia|].
    congruence.
Qed.

(** C8: after [initSymTab] in a new process, looking [WRITEI] up in the
    global list finds a Procedure whose parameter list holds exactly
    one object: a Parameter named [i], passed by value, of a type of
    class [TP_INT], and owned by that Procedure. *)
Theorem initSymTab_WRITEI :
  7 < MAX_IDENT_LEN →
  ∃ st tab w proc i param t sc,
    initSymTab startState = Ok tt st ∧
    symbolTable st = Some tab ∧
    findObject (globalObjectList tab) "WRITEI" st = Ok (Some w) st ∧
    objects st !! w = Some proc ∧
    kind proc = OBJ_PROCEDURE ∧ attrs proc = procAttrs [Some i] sc ∧
    objects st !! i = Some param ∧
    name param = "i" ∧ kind param = OBJ_PARAMETER ∧
    attrs param = paramAttrs PARAM_VALUE (Some t) (Some w) ∧
    types st !! t = Some (mkType TP_INT 0 None).
Proof.
  intros Hbound. eexists builtinsState, _, 2, _, 3, _, 4, _.
  split; [by apply initSymTab_run|]. by vm_compute.
Qed.

(** C10: [exitBlock] reads [currentScope->outer] before anything else.
    With the cursor unset the read faults, and that is the state
    [initSymTab] leaves; [exitBlock] returns exactly when the cursor is
    on a live scope. *)
Theorem exitBlock_needs_cursor :
  (∀ st,
     (∀ tab, symbolTable st = Some tab → currentScope tab = None) →
     exitBlock st = Fault) ∧
  (∀ st,
     initSymTab startState = Ok tt st →
     (∃ tab, symbolTable st = Some tab ∧ currentScope tab = None) ∧
     exitBlock st = Fault) ∧
  (∀ st st',
     exitBlock st = Ok tt st' →
     ∃ tab c sc,
       symbolTable st = Some tab ∧ currentScope tab = Some c ∧
       scopes st !! c = Some sc) ∧
  (∀ st tab c sc,
     symbolTable st = Some tab → currentScope tab = Some c →
     scopes st !! c = Some sc →
     ∃ st', exitBlock st = Ok tt st').
Proof.
  split; [apply exitBlock_unset|]. split; [|split].
  - intros st ->%initSymTab_Ok_inv. split; [by eexists|done].
  - apply exitBlock_returns.
  - intros st tab c sc Htab Hcur Hsc. destruct (outer sc) as [o|] eqn:Ho.
    + eexists. by eapply exitBlock_outer.
    + eexists. by eapply exitBlock_root.
Qed.

End Bootstrap.

(** ** The scope chain *)

Lemma scopesWf_builtins : scopesWf builtinsState.
Proof.
  split; unfold builtinsState; simpl.
  - intros a sc o Hsc Ho.
    do 5 (destruct a as [|a]; [by simplify_eq/=|]). done.
  - intros tab c Htab Hc. by simplify_eq/=.
  - intros a o s Ho Hs.
    do 7 (destruct a as [|a];
            [unfold bodyScope in Hs; simplify_eq/=; lia|]).
    done.
Qed.

Lemma scopesWf_frame st st' :
  scopes st' = scopes st → objects st' = objects st →
  symbolTable st' = symbolTable st →
  scopesWf st → scopesWf st'.
Proof.
  intros Hs Ho Ht [Houter Hcursor Hbody].
  split; rewrite ?Hs, ?Ho, ?Ht; eauto.
Qed.

Lemma scopesWf_update_object st w own own' :
  objects st !! w = Some own → bodyScope own' = bodyScope own →
  scopesWf st →
  scopesWf (set_cells Objects (<[w:=own']> (objects st)) st).
Proof.
  intros Hw Hbody [Houter Hcursor Hbodies]. split; simpl; [done..|].
  intros a o s [[-> [-> _]] | [_ Ha]]%list_lookup_insert_Some Hs.
  - rewrite Hbody in Hs. eauto.
  - eauto.
Qed.

Lemma scopesWf_update_scope st cur sc sc' :
  scopes st !! cur = Some sc → outer sc' = outer sc →
  scopesWf st →
  scopesWf (set_cells Scopes (<[cur:=sc']> (scopes st)) st).
Proof.
  intros Hcur Hout [Houter Hcursor Hbodies].
  split; simpl; rewrite ?length_insert; [|done..].
  intros a sc0 o [[-> [-> _]] | [_ Ha]]%list_lookup_insert_Some Ho.
  - rewrite Hout in Ho. eauto.
  - eauto.
Qed.

Lemma scopesWf_new_scope st own out :
  valid Scopes st out → scopesWf st →
  scopesWf (set_cells Scopes (scopes st ++ [mkScope [] own out]) st).
Proof.
  intros Hvalid [Houter Hcursor Hbodies].
  split; simpl; rewrite ?length_app; simpl.
  - intros a sc o [Ha | [Hlen Ha]]%lookup_app_Some Ho; [eauto|].
    destruct (a - length (scopes st)) as [|k] eqn:Hk; [|done].
    simplify_eq/=. lia.
  - intros tab c Htab Hc. specialize (Hcursor tab c Htab Hc). lia.
  - intros a o s Ho Hs. specialize (Hbodies a o s Ho Hs). lia.
Qed.

Lemma scopesWf_cursor st tab s :
  symbolTable st = Some tab → valid Scopes st s → scopesWf st →
  scopesWf (setSymTab
              (Some (mkSymTab (program tab) s (globalObjectList tab))) st).
Proof.
  intros Htab Hvalid [Houter Hcursor Hbodies]. split; simpl; [done| |done].
  intros tab' c [= <-] Hc. simpl in Hc. by subst s.
Qed.

Lemma cursor_valid st : scopesWf st → valid Scopes st (cursor st).
Proof.
  intros [_ Hcursor _]. unfold cursor, valid.
  destruct (symbolTable st) as [tab|]; [|done].
  destruct (currentScope tab) as [c|] eqn:Hc; [|done]. simpl. eauto.
Qed.

Lemma scopesWf_afterConstruct c n pk own st :
  scopesWf st → scopesWf (afterConstruct c n pk own st).
Proof.
  intros Hwf. pose proof (cursor_valid st Hwf) as Hvalid.
  destruct Hwf as [Houter Hcursor Hbodies].
  split; unfold afterConstruct; simpl; rewrite ?length_app.
  - intros a sc o [Ha | [Hlen Ha]]%lookup_app_Some Ho; [eauto|].
    destruct (makesScope c); [|done].
    destruct (a - length (scopes st)) as [|k] eqn:Hk; [|done].
    simplify_eq/=. destruct c; simplify_eq/=;
      unfold valid in Hvalid; rewrite Ho in Hvalid; simpl in Hvalid; lia.
  - intros tab c' Htab Hc.
    assert (∃ tab0, symbolTable st = Some tab0 ∧
                    currentScope tab0 = Some c') as (tab0 & Ht0 & Hc0).
    { destruct c; simpl in Htab; eauto.
      destruct (symbolTable st) as [tab0|]; simplify_eq/=. eauto. }
    specialize (Hcursor tab0 c' Ht0 Hc0). lia.
  - intros a o s [Ha | [Hlen Ha]]%lookup_app_Some Hs.
    + specialize (Hbodies a o s Ha Hs). lia.
    + destruct (a - length (objects st)) as [|k] eqn:Hk; [|done].
      simplify_eq/=. unfold bodyScope in Hs.
      destruct c; simplify_eq/=; lia.
Qed.

(** Every return of [declareObject] is a no-op, a write to one object
    that keeps its scope, or a write to one scope that keeps its
    [outer]. *)
Lemma declareObject_Ok_inv obj st st' :
  declareObject obj st = Ok tt st' →
  st' = st ∨
  (∃ w own own',
     objects st !! w = Some own ∧ bodyScope own' = bodyScope own ∧
     st' = set_cells Objects (<[w:=own']> (objects st)) st) ∨
  (∃ cur sc sc',
     scopes st !! cur = Some sc ∧ outer sc' = outer sc ∧
     st' = set_cells Scopes (<[cur:=sc']> (scopes st)) st).
Proof.
  unfold declareObject, addFuncParam, addProcParam, addLocalObject.
  unfold_M. intros Hrun.
  repeat case_match; simplify_eq; auto;
    match goal with
    | Ht : symbolTable _ = Some _ |- _ => simpl; rewrite <- Ht
    end.
  - right. left. eexists _, _, _. split; [eassumption|].
    split; [|reflexivity]. unfold bodyScope. simpl.
    by match goal with Hattrs : attrs _ = _ |- _ => rewrite Hattrs end.
  - right. left. eexists _, _, _. split; [eassumption|].
    split; [|reflexivity]. unfold bodyScope. simpl.
    by match goal with Hattrs : attrs _ = _ |- _ => rewrite Hattrs end.
  - right. right. eexists _, _, _. split; [eassumption|].
    split; [|reflexivity]. done.
Qed.

Section Reachability.
Context `{IdentBound}.

Lemma run_preserves_scopesWf c st st' :
  scopesWf st → wellFormedCall st c → run c st = Ok tt st' → scopesWf st'.
Proof.
  intros Hwf Hcall Hrun. destruct c; simpl in Hrun, Hcall.
  - (* makeIntType *)
    unfold makeIntType in Hrun. unfold_M. simplify_eq.
    by (eapply scopesWf_frame; [| | |eassumption]).
  - unfold makeCharType in Hrun. unfold_M. simplify_eq.
    by (eapply scopesWf_frame; [| | |eassumption]).
  - unfold makeArrayType in Hrun. unfold_M.
    repeat case_match; simplify_eq; by (eapply scopesWf_frame; [| | |eassumption]).
  - unfold makeIntConstant in Hrun. unfold_M. simplify_eq.
    by (eapply scopesWf_frame; [| | |eassumption]).
  - unfold makeCharConstant in Hrun. unfold_M. simplify_eq.
    by (eapply scopesWf_frame; [| | |eassumption]).
  - unfold duplicateConstantValue in Hrun. unfold_M.
    repeat case_match; simplify_eq; by (eapply scopesWf_frame; [| | |eassumption]).
  - (* a constructor *)
    apply bind_Ok in Hrun as (r & st1 & Hrun & Hret).
    unfold_M. simplify_eq.
    apply construct_Ok_inv in Hrun as (n & _ & _ & _ & _ & ->).
    by apply scopesWf_afterConstruct.
  - (* createScope *)
    unfold createScope in Hrun. unfold_M. simplify_eq.
    destruct Hcall as [_ Hout]. by apply (scopesWf_new_scope st).
  - (* enterBlock *)
    unfold enterBlock in Hrun. unfold_M.
    repeat case_match; simplify_eq; [|done].
    by eapply scopesWf_cursor.
  - (* exitBlock *)
    unfold exitBlock in Hrun. unfold_M.
    repeat case_match; simplify_eq; [|done].
    eapply scopesWf_cursor; [done| |done]. simpl.
    match goal with
    | Hc : currentScope _ = Some ?c, Hs : scopes _ !! ?c = Some _,
      Ho : outer _ = Some ?o |- _ =>
        pose proof (wf_outer _ Hwf _ _ _ Hs Ho);
        pose proof (lookup_lt_Some _ _ _ Hs)
    end. lia.
  - (* declareObject *)
    apply declareObject_Ok_inv in Hrun
      as [-> | [(w & own & own' & Hw & Hbody & ->)
              | (cur & sc & sc' & Hcur & Hout & ->)]];
      eauto using scopesWf_update_object, scopesWf_update_scope.
Qed.

Lemma reachable_scopesWf st : reachable st → scopesWf st.
Proof.
  induction 1 as [st Hinit | st c st' _ IH Hcall Hrun].
  - apply initSymTab_Ok_inv in Hinit as ->. apply scopesWf_builtins.
  - by eapply run_preserves_scopesWf.
Qed.

Lemma runAll_reachable cs st st' :
  reachable st → runAll cs st = Some st' → reachable st'.
Proof.
  revert st. induction cs as [|c cs IH]; simpl; intros st Hreach Hrun.
  - by simplify_eq.
  - case_bool_decide as Hcall; [|done].
    destruct (run c st) as [[] st1| |] eqn:Hc; [|done..].
    eapply IH; [|done]. by eapply reachable_call.
Qed.

Lemma session_reachable cs st : session cs = Some st → reachable st.
Proof.
  unfold session.
  destruct (initSymTab startState) as [[] st0| |] eqn:Hinit; [|done..].
  apply runAll_reachable. by apply reachable_init.
Qed.

End Reachability.

(** With every [outer] link pointing to an older scope, the walk from a
    live scope ends at a scope without [outer], within as many steps as
    the address it starts from. *)
Lemma outermost_terminates (scs : list Scope) :
  (∀ a sc o, scs !! a = Some sc → outer sc = Some o → o < a) →
  ∀ fuel s, s < fuel → s < length scs →
    ∃ root sc,
      outermost fuel scs s = Some root ∧
      scs !! root = Some sc ∧ outer sc = None.
Proof.
  intros Hwf fuel. induction fuel as [|fuel IH]; intros s Hfuel Hlive; [lia|].
  destruct (lookup_lt_is_Some_2 scs s Hlive) as [sc Hsc].
  destruct (outer sc) as [o|] eqn:Ho.
  - pose proof (Hwf _ _ _ Hsc Ho).
    destruct (IH o) as (root & sc' & Hwalk & Hroot); [lia..|].
    exists root, sc'. split; [|done]. cbn [outermost]. by rewrite Hsc, Ho.
  - exists s, sc. split; [|done]. cbn [outermost]. by rewrite Hsc, Ho.
Qed.

(** * Sample runs checked against the theorems *)

Lemma inFunctionState_reachable : reachable (H:=sampleBound) inFunctionState.
Proof. apply session_reachable with sampleCalls. by vm_compute. Qed.

Lemma inProgramState_reachable : reachable (H:=sampleBound) inProgramState.
Proof.
  apply session_reachable with (sampleCalls ++ [CallExitBlock]).
  by vm_compute.
Qed.

(** With the cursor in the body of [F], the parameter [x] goes to the
    parameter list of [F] and the scopes stay as they were. *)
Lemma declareObject_routing_witness :
  ∃ st' own',
    declareObject (Some 9) inFunctionState = Ok tt st' ∧
    objects st' = <[8:=own']> (objects inFunctionState) ∧
    objects st' !! 8 = Some own' ∧
    ownsParams own' ([] ++ [Some 9]) ∧
    name own' = "F" ∧ bodyScope own' = Some 6 ∧
    scopes st' = scopes inFunctionState.
Proof.
  exact (proj1 (proj2
    (declareObject_routing inFunctionState
       (mkSymTab (Some 7) (Some 6) [Some 0; Some 1; Some 2; Some 4; Some 6])
       6 (mkScope [] (Some 8) (Some 5))
       9 (mkObject "x" OBJ_PARAMETER (paramAttrs PARAM_VALUE None (Some 8)))
       eq_refl eq_refl eq_refl eq_refl))
    eq_refl 8 (mkObject "F" OBJ_FUNCTION (funcAttrs [] None (Some 6))) []
    eq_refl eq_refl eq_refl).
Defined.

(** C1 as stated fails with the cursor in the block of the Program: the
    owner of the cursor scope is [PROG], which has no parameter list,
    and declaring the Parameter [x] changes nothing at all. *)
Lemma declareObject_parameter_dropped :
  reachable (H:=sampleBound) inProgramState ∧
  (∃ tab sc o own,
     symbolTable inProgramState = Some tab ∧ currentScope tab = Some 5 ∧
     scopes inProgramState !! 5 = Some sc ∧ owner sc = Some 7 ∧
     objects inProgramState !! 9 = Some o ∧ kind o = OBJ_PARAMETER ∧
     objects inProgramState !! 7 = Some own ∧ kind own = OBJ_PROGRAM ∧
     paramListOf own = None) ∧
  declareObject (Some 9) inProgramState = Ok tt inProgramState ∧
  ¬ (∃ st' own' params,
       declareObject (Some 9) inProgramState = Ok tt st' ∧
       objects st' !! 7 = Some own' ∧
       paramListOf own' = Some (params ++ [Some 9])).
Proof.
  split; [apply inProgramState_reachable|].
  split; [by eexists _, _, _, _; vm_compute|].
  split; [by vm_compute|].
  intros (st' & own' & params & Hrun & Hown & Hparams).
  vm_compute in Hrun. injection Hrun as <-.
  vm_compute in Hown. injection Hown as <-. done.
Qed.

Lemma makeArrayType_spec_witness :
  (∃ t st',
     makeArrayType 10 (Some 0) builtinsState = Ok (Some t) st' ∧
     types builtinsState !! t = None ∧
     types st' = types builtinsState ++ [mkType TP_ARRAY 10 (Some 0)] ∧
     types st' !! t = Some (mkType TP_ARRAY 10 (Some 0))) ∧
  (∃ st', makeArrayType 0 (Some 0) builtinsState = Ok None st' ∧
          types st' = types builtinsState).
Proof.
  split.
  - apply (proj1 (makeArrayType_spec 10 (Some 0) builtinsState)); [lia|done].
  - apply (proj2 (makeArrayType_spec 0 (Some 0) builtinsState)).
    left. lia.
Defined.

Lemma construct_name_spec_witness :
  (∃ st', construct (H:=sampleBound) NewFunction
            (Some "AVeryLongIdentifier") PARAM_VALUE None builtinsState
          = Exited st' ∧
          objects st' = objects builtinsState) ∧
  (∃ p st' o,
     construct (H:=sampleBound) NewFunction (Some "F") PARAM_VALUE None
       builtinsState = Ok (Some p) st' ∧
     objects builtinsState !! p = None ∧ objects st' !! p = Some o ∧
     name o = "F" ∧ kind o = OBJ_FUNCTION).
Proof.
  split.
  - apply (proj1 (construct_name_spec (H:=sampleBound) NewFunction
                    (Some "AVeryLongIdentifier") PARAM_VALUE None
                    builtinsState)).
    right. exists "AVeryLongIdentifier". split; [done | vm_compute; lia].
  - apply (proj2 (construct_name_spec (H:=sampleBound) NewFunction
                    (Some "F") PARAM_VALUE None builtinsState) "F");
      [done | vm_compute; lia | by eexists].
Defined.

(** C3 as stated fails on the empty name: its length, 0, is below any
    positive bound, and the constructor returns an object named by the
    empty string. *)
Lemma construct_empty_name_accepted :
  ∃ p st' o,
    construct (H:=sampleBound) NewVariable (Some "") PARAM_VALUE None
      builtinsState = Ok (Some p) st' ∧
    objects st' !! p = Some o ∧ name o = "" ∧ kind o = OBJ_VARIABLE.
Proof. eexists _, _, _. by vm_compute. Qed.

(** C4 as stated fails on the built-ins: the body scope of [READC] was
    created by [initSymTab] with the cursor unset, so its own [outer] is
    absent and the walk ends at once, at a scope that is not the root
    scope of the Program (scope 5 here). *)
Lemma builtin_scope_not_under_program :
  reachable (H:=sampleBound) inFunctionState ∧
  (∃ o, objects inFunctionState !! 0 = Some o ∧
        kind o = OBJ_FUNCTION ∧ bodyScope o = Some 0) ∧
  outermost (length (scopes inFunctionState)) (scopes inFunctionState) 0
    = Some 0 ∧
  programRoot inFunctionState 5 ∧
  ¬ programRoot inFunctionState 0.
Proof.
  split; [apply inFunctionState_reachable|].
  split; [by eexists; vm_compute|]. split; [by vm_compute|]. split.
  - by eexists _, 7, _; vm_compute.
  - intros (tab & p & o & Htab & Hp & Ho & Hroot).
    vm_compute in Htab. injection Htab as <-.
    vm_compute in Hp. injection Hp as <-.
    vm_compute in Ho. injection Ho as <-. done.
Qed.

Lemma createProgramObject_spec_witness :
  ∃ p s st',
    createProgramObject (H:=sampleBound) (Some "PROG") builtinsState
      = Ok (Some p) st' ∧
    objects builtinsState !! p = None ∧ scopes builtinsState !! s = None ∧
    symbolTable st' =
      Some (mkSymTab (Some p) None [Some 0; Some 1; Some 2; Some 4; Some 6]) ∧
    objects st' !! p = Some (mkObject "PROG" OBJ_PROGRAM (progAttrs (Some s))) ∧
    scopes st' !! s = Some (mkScope [] (Some p) None).
Proof.
  apply (proj1 (createProgramObject_spec (H:=sampleBound) "PROG"
                  builtinsState
                  (mkSymTab None None [Some 0; Some 1; Some 2; Some 4; Some 6])
                  ltac:(vm_compute; lia) eq_refl)).
Defined.

Lemma enterBlock_exitBlock_spec_witness :
  enterBlock (Some 5) inFunctionState = Ok tt inProgramState ∧
  exitBlock inFunctionState = Ok tt inProgramState ∧
  exitBlock inProgramState = Ok tt inProgramState.
Proof.
  pose proof (enterBlock_exitBlock_spec inFunctionState
                (mkSymTab (Some 7) (Some 6)
                   [Some 0; Some 1; Some 2; Some 4; Some 6]) eq_refl)
    as (_ & Henter & Hexit).
  pose proof (enterBlock_exitBlock_spec inProgramState
                (mkSymTab (Some 7) (Some 5)
                   [Some 0; Some 1; Some 2; Some 4; Some 6]) eq_refl)
    as (_ & _ & Hroot).
  split; [exact (Henter 5)|]. split.
  - exact (Hexit 6 (mkScope [] (Some 8) (Some 5)) eq_refl eq_refl).
  - exact (Hroot 5 (mkScope [Some 8] (Some 7) None) eq_refl eq_refl).
Defined.

Lemma declareObject_noop_witness :
  declareObject None builtinsState = Ok tt builtinsState ∧
  declareObject (Some 3) builtinsState = Ok tt builtinsState.
Proof.
  split.
  - exact (proj1 (declareObject_noop builtinsState)).
  - exact (proj2 (declareObject_noop builtinsState) (Some 3)
             (mkSymTab None None [Some 0; Some 1; Some 2; Some 4; Some 6])
             eq_refl eq_refl).
Defined.

Lemma initSymTab_WRITEI_witness :
  ∃ st tab w proc i param t sc,
    initSymTab (H:=sampleBound) startState = Ok tt st ∧
    symbolTable st = Some tab ∧
    findObject (globalObjectList tab) "WRITEI" st = Ok (Some w) st ∧
    objects st !! w = Some proc ∧
    kind proc = OBJ_PROCEDURE ∧ attrs proc = procAttrs [Some i] sc ∧
    objects st !! i = Some param ∧
    name param = "i" ∧ kind param = OBJ_PARAMETER ∧
    attrs param = paramAttrs PARAM_VALUE (Some t) (Some w) ∧
    types st !! t = Some (mkType TP_INT 0 None).
Proof.
  apply (initSymTab_WRITEI (H:=sampleBound)). vm_compute. lia.
Defined.

Lemma duplicateConstantValue_independent_witness :
  ∃ d st',
    duplicateConstantValue (Some 0) constantsState = Ok (Some d) st' ∧
    d ≠ 0 ∧ constants constantsState !! d = None ∧
    (∃ c', constants st' !! d = Some c' ∧
           type c' = TP_INT ∧ payload c' = IntMember 42) ∧
    constants st' !! 0 = Some (mkConstantValue TP_INT (IntMember 42)) ∧
    (∀ x, ∃ st'',
       store Constants (Some d) x st' = Ok tt st'' ∧
       constants st'' !! d = Some x ∧
       constants st'' !! 0 = Some (mkConstantValue TP_INT (IntMember 42))) ∧
    (∀ x, ∃ st'',
       store Constants (Some 0) x st' = Ok tt st'' ∧
       constants st'' !! 0 = Some x ∧
       constants st'' !! d = Some (mkConstantValue TP_INT (IntMember 42))).
Proof.
  exact (proj2 (duplicateConstantValue_independent constantsState) 0
           (mkConstantValue TP_INT (IntMember 42)) eq_refl I).
Defined.

Lemma exitBlock_needs_cursor_witness :
  exitBlock builtinsState = Fault ∧
  (∃ st', exitBlock inFunctionState = Ok tt st').
Proof.
  split.
  - apply (proj1 (exitBlock_needs_cursor (H:=sampleBound)) builtinsState).
    intros tab [= <-]. reflexivity.
  - exact (proj2 (proj2 (proj2 (exitBlock_needs_cursor (H:=sampleBound))))
             inFunctionState
             (mkSymTab (Some 7) (Some 6)
                [Some 0; Some 1; Some 2; Some 4; Some 6])
             6 (mkScope [] (Some 8) (Some 5)) eq_refl eq_refl eq_refl).
Defined.

(** * Further properties of the code *)

(** ** Lookup *)

Lemma findObject_miss l n st :
  Forall (otherName st n) l → findObject l n st = Ok None st.
Proof.
  induction 1 as [|e l (a & o & -> & Ha & Hn) _ IH]; [done|].
  cbn [findObject]. unfold mbind, M_bind, load. simpl. rewrite Ha.
  by rewrite bool_decide_eq_false_2.
Qed.

Lemma findObject_hit l1 p l2 n st o :
  Forall (otherName st n) l1 → objects st !! p = Some o → name o = n →
  findObject (l1 ++ Some p :: l2) n st = Ok (Some p) st.
Proof.
  intros Hl1 Hp Hname.
  induction Hl1 as [|e l (a & o' & -> & Ha & Hn) _ IH]; simpl.
  - unfold mbind, M_bind, load. simpl. rewrite Hp.
    by rewrite bool_decide_eq_true_2.
  - unfold mbind, M_bind, load. simpl. rewrite Ha.
    by rewrite bool_decide_eq_false_2.
Qed.

Lemma findObject_stuck l1 e l2 n st :
  Forall (otherName st n) l1 → unreadable st e →
  findObject (l1 ++ e :: l2) n st = Fault.
Proof.
  intros Hl1 He.
  induction Hl1 as [|e' l (a & o' & -> & Ha & Hn) _ IH]; simpl.
  - unfold mbind, M_bind, load. destruct e as [a|]; [|done].
    simpl in *. by rewrite He.
  - unfold mbind, M_bind, load. simpl. rewrite Ha.
    by rewrite bool_decide_eq_false_2.
Qed.

(** Every list splits at the first entry that is unreadable or named
    [n], if there is one. *)
Lemma lookup_split l n st :
  Forall (otherName st n) l ∨
  ∃ l1 e l2,
    l = l1 ++ e :: l2 ∧ Forall (otherName st n) l1 ∧
    (unreadable st e ∨
     ∃ p o, e = Some p ∧ objects st !! p = Some o ∧ name o = n).
Proof.
  induction l as [|e l IH]; [by left|].
  assert (otherName st n e ∨ unreadable st e ∨
          ∃ p o, e = Some p ∧ objects st !! p = Some o ∧ name o = n)
    as [Hother | Hstop].
  { destruct e as [a|]; [|by right; left].
    destruct (objects st !! a) as [o|] eqn:Ha; [|by right; left].
    destruct (decide (name o = n)) as [Hn|Hn].
    - right. right. by exists a, o.
    - left. by exists a, o. }
  - destruct IH as [Hall | (l1 & e' & l2 & -> & Hl1 & He')].
    + left. by constructor.
    + right. exists (e :: l1), e', l2. split; [done|].
      split; [by constructor | done].
  - right. exists [], e, l. by split.
Qed.

(** The three ways a lookup can go. *)
Lemma findObject_outcome l n st :
  (Forall (otherName st n) l ∧ findObject l n st = Ok None st) ∨
  (∃ l1 e l2,
     l = l1 ++ e :: l2 ∧ Forall (otherName st n) l1 ∧ unreadable st e ∧
     findObject l n st = Fault) ∨
  (∃ l1 p l2 o,
     l = l1 ++ Some p :: l2 ∧ Forall (otherName st n) l1 ∧
     objects st !! p = Some o ∧ name o = n ∧
     findObject l n st = Ok (Some p) st).
Proof.
  destruct (lookup_split l n st)
    as [Hall | (l1 & e & l2 & -> & Hl1 & [He | (p & o & -> & Hp & Hn)])].
  - left. split; [done | by apply findObject_miss].
  - right. left. exists l1, e, l2. by rewrite findObject_stuck.
  - right. right. exists l1, p, l2, o.
    by rewrite (findObject_hit _ _ _ _ _ o).
Qed.

(** An entry cannot be both of another name and unreadable or named
    [n]: the split of [lookup_split] is unique. *)
Lemma otherName_prefix_unique st n l1 e l2 l1' e' l2' :
  l1 ++ e :: l2 = l1' ++ e' :: l2' →
  Forall (otherName st n) l1 → Forall (otherName st n) l1' →
  ¬ otherName st n e → ¬ otherName st n e' →
  l1 = l1' ∧ e = e' ∧ l2 = l2'.
Proof.
  intros Heq Hl1. revert l1' Heq.
  induction Hl1 as [|x l1 Hx _ IH]; intros [|y l1'] Heq Hl1' He He';
    simpl in Heq; injection Heq as Hhead Heq.
  - by subst.
  - subst. by apply Forall_cons in Hl1' as [? _].
  - by subst.
  - subst. apply Forall_cons in Hl1' as [_ Hl1'].
    by destruct (IH l1' Heq) as (-> & -> & ->).
Qed.

(** X1: when [findObject] returns, the state is as it was; a result
    [p] is the first entry of the list whose object is named [n], every
    entry before it carrying a live object of another name; a [NULL]
    result means that every entry carries a live object of another
    name. *)
Theorem findObject_first_match (l : list ptr) (n : string)
    (st st' : State) (r : ptr) :
  findObject l n st = Ok r st' →
  st' = st ∧
  match r with
  | Some p =>
      ∃ l1 l2 o,
        l = l1 ++ Some p :: l2 ∧ Forall (otherName st n) l1 ∧
        objects st !! p = Some o ∧ name o = n
  | None => Forall (otherName st n) l
  end.
Proof.
  intros Hrun.
  destruct (findObject_outcome l n st)
    as [(Hall & Hmiss)
       | [(l1 & e & l2 & -> & Hl1 & He & Hfault)
         | (l1 & p & l2 & o & -> & Hl1 & Hp & Hn & Hhit)]].
  - rewrite Hmiss in Hrun. by simplify_eq.
  - by rewrite Hfault in Hrun.
  - rewrite Hhit in Hrun. simplify_eq.
    split; [done|]. by exists l1, l2, o.
Qed.

(** X2: [findObject] faults exactly when an entry that is [NULL] or not
    live comes before any entry named [n]; it never exits. *)
Theorem findObject_fault_iff (l : list ptr) (n : string) (st : State) :
  (findObject l n st = Fault ↔
   ∃ l1 e l2,
     l = l1 ++ e :: l2 ∧ Forall (otherName st n) l1 ∧ unreadable st e) ∧
  (∀ st', findObject l n st ≠ Exited st').
Proof.
  assert (∀ e, unreadable st e → ¬ otherName st n e) as Hunread.
  { intros e He (a & o & -> & Ha & _). simpl in He. congruence. }
  destruct (findObject_outcome l n st)
    as [(Hall & Hmiss)
       | [(l1 & e & l2 & -> & Hl1 & He & Hfault)
         | (l1 & p & l2 & o & -> & Hl1 & Hp & Hn & Hhit)]].
  - rewrite Hmiss. split; [|done].
    split; [done|]. intros (l1 & e & l2 & -> & _ & He).
    apply Forall_app in Hall as [_ Hall].
    apply Forall_cons in Hall as [Hother _]. by destruct (Hunread e).
  - rewrite Hfault. split; [|done].
    split; [|done]. intros _. by exists l1, e, l2.
  - rewrite Hhit. split; [|done].
    split; [done|]. intros (l1' & e & l2' & Heq & Hl1' & He).
    destruct (otherName_prefix_unique st n _ _ _ _ _ _ Heq)
      as (_ & <- & _); try done.
    + intros (a & o' & [= <-] & Ha & Hne). congruence.
    + by apply Hunread.
    + simpl in He. congruence.
Qed.

Lemma findObject_cons e l n st :
  findObject (e :: l) n st =
    match e with
    | None => Fault
    | Some a =>
        match objects st !! a with
        | None => Fault
        | Some o =>
            if bool_decide (name o = n) then Ok e st else findObject l n st
        end
    end.
Proof.
  cbn [findObject]. unfold mbind, M_bind, load. destruct e as [a|]; [|done].
  simpl. destruct (objects st !! a) as [o|]; [|done].
  by destruct (bool_decide (name o = n)).
Qed.


Lemma findObject_app_found l n st p obj :
  findObject l n st = Ok (Some p) st →
  findObject (l ++ [obj]) n st = Ok (Some p) st.
Proof.
  intros Hfound.
  destruct (findObject_outcome l n st)
    as [(Hall & Hmiss)
       | [(l1 & e & l2 & -> & Hl1 & He & Hfault)
         | (l1 & q & l2 & o & -> & Hl1 & Hq & Hn & Hhit)]];
    [congruence..|].
  rewrite Hhit in Hfound. injection Hfound as ->.
  rewrite <- app_assoc. simpl. by apply findObject_hit with o.
Qed.

Lemma findObject_app_missed l n st a o :
  findObject l n st = Ok None st → objects st !! a = Some o →
  findObject (l ++ [Some a]) n st =
    Ok (if bool_decide (name o = n) then Some a else None) st.
Proof.
  intros Hmiss Ha.
  destruct (findObject_outcome l n st)
    as [(Hall & _)
       | [(l1 & e & l2 & -> & Hl1 & He & Hfault)
         | (l1 & q & l2 & o' & -> & Hl1 & Hq & Hn & Hhit)]];
    [|congruence..].
  case_bool_decide as Hn.
  - by apply findObject_hit with o.
  - apply findObject_miss. apply Forall_app. split; [done|].
    constructor; [|done]. by exists a, o.
Qed.

(** X3: appending with [addObject] never changes the answer for a name
    that was found, whatever is appended; after a miss, appending a live
    object makes it the answer for its own name and leaves every other
    name missing. *)
Theorem findObject_addObject (l : list ptr) (n : string) (st : State) :
  (∀ p obj,
     findObject l n st = Ok (Some p) st →
     findObject (addObject l obj) n st = Ok (Some p) st) ∧
  (∀ a o,
     findObject l n st = Ok None st → objects st !! a = Some o →
     findObject (addObject l (Some a)) n st =
       Ok (if bool_decide (name o = n) then Some a else None) st).
Proof.
  split.
  - intros p obj Hfound. rewrite addObject_app.
    by apply findObject_app_found.
  - intros a o Hmiss Ha. rewrite addObject_app.
    by apply findObject_app_missed.
Qed.

Section DeclareThenFind.
Variables (st : State) (tab : SymTab) (cur : addr) (sc : Scope).
Variables (obj : addr) (o : Object).
Hypothesis Htab : symbolTable st = Some tab.
Hypothesis Hcur : currentScope tab = Some cur.
Hypothesis Hsc : scopes st !! cur = Some sc.
Hypothesis Hobj : objects st !! obj = Some o.



End DeclareThenFind.

(** ** Moving the cursor *)

Lemma withCursor_same st tab :
  symbolTable st = Some tab → withCursor (currentScope tab) st = st.
Proof.
  intros Htab. unfold withCursor, setSymTab. rewrite Htab.
  destruct st, tab. by simplify_eq/=.
Qed.

Lemma withCursor_twice s1 s2 st :
  withCursor s2 (withCursor s1 st) = withCursor s2 st.
Proof.
  unfold withCursor. destruct (symbolTable st) as [tab|] eqn:Htab; simpl.
  - done.
  - by rewrite Htab.
Qed.

Lemma exitBlock_step st tab c sc :
  symbolTable st = Some tab → currentScope tab = Some c →
  scopes st !! c = Some sc →
  exitBlock st =
    Ok tt (withCursor (if outer sc is Some o then Some o else Some c) st).
Proof.
  intros Htab Hcur Hsc. destruct (outer sc) as [o|] eqn:Ho.
  - rewrite (exitBlock_outer st tab c sc o) by done.
    unfold withCursor. by rewrite Htab.
  - rewrite (exitBlock_root st tab c sc) by done.
    by rewrite <- Hcur, withCursor_same.
Qed.

(** X6: [enterBlock] on a live scope followed by [exitBlock] leaves the
    cursor on the [outer] of that scope (on the scope itself when it has
    none), wherever the cursor was before: no record of the previous
    cursor is kept.  The pair is the identity exactly when the scope was
    entered from its own [outer]. *)
Theorem enterBlock_then_exitBlock (st : State) (tab : SymTab)
    (s : addr) (sc : Scope) :
  symbolTable st = Some tab → scopes st !! s = Some sc →
  (enterBlock (Some s);; exitBlock) st =
    Ok tt (withCursor (if outer sc is Some o then Some o else Some s) st) ∧
  (is_Some (outer sc) → currentScope tab = outer sc →
   (enterBlock (Some s);; exitBlock) st = Ok tt st).
Proof.
  intros Htab Hsc.
  assert ((enterBlock (Some s);; exitBlock) st =
            Ok tt (withCursor
                     (if outer sc is Some o then Some o else Some s) st))
    as Hrun.
  { rewrite (bind_run _ _ _ _ _ (enterBlock_scope s st tab Htab)).
    erewrite exitBlock_step; [|reflexivity..|exact Hsc].
    f_equal. unfold withCursor at 1. simpl.
    unfold withCursor. by rewrite Htab. }
  split; [done|]. intros [o Ho] Hcur. rewrite Hrun, Ho, <- Ho, <- Hcur.
  by rewrite withCursor_same.
Qed.

Lemma outermost_mono scs fuel fuel' s r :
  outermost fuel scs s = Some r → fuel ≤ fuel' →
  outermost fuel' scs s = Some r.
Proof.
  revert fuel' s. induction fuel as [|fuel IH]; intros fuel' s; [done|].
  destruct fuel' as [|fuel']; [lia|]. cbn [outermost]. intros Hwalk Hle.
  destruct (scs !! s) as [sc|]; [|done].
  destruct (outer sc) as [o|]; [|done]. apply IH; [done | lia].
Qed.

Lemma exitBlocks_root n st tab c sc :
  symbolTable st = Some tab → currentScope tab = Some c →
  scopes st !! c = Some sc → outer sc = None →
  exitBlocks n st = Ok tt st.
Proof.
  intros Htab Hcur Hsc Ho. induction n as [|n IH]; [done|].
  cbn [exitBlocks].
  by rewrite (bind_run _ _ _ _ _ (exitBlock_root st tab c sc Htab Hcur Hsc Ho)).
Qed.

Lemma exitBlocks_walk n :
  ∀ st tab c,
    (∀ a sc o, scopes st !! a = Some sc → outer sc = Some o → o < a) →
    symbolTable st = Some tab → currentScope tab = Some c →
    c < length (scopes st) → c ≤ n →
    ∃ r, outermost (S c) (scopes st) c = Some r ∧
         exitBlocks n st = Ok tt (withCursor (Some r) st).
Proof.
  induction n as [|n IH]; intros st tab c Hwf Htab Hcur Hlive Hn;
    destruct (lookup_lt_is_Some_2 _ _ Hlive) as [sc Hsc];
    destruct (outer sc) as [o|] eqn:Ho;
    try (pose proof (Hwf _ _ _ Hsc Ho); lia).
  - exists c. cbn [outermost]. rewrite Hsc, Ho. split; [done|].
    simpl. by rewrite <- Hcur, withCursor_same.
  - pose proof (Hwf _ _ _ Hsc Ho) as Hlt.
    set (st1 := withCursor (Some o) st).
    assert (scopes st1 = scopes st) as Hs1
      by (unfold st1, withCursor; by rewrite Htab).
    assert (symbolTable st1 =
              Some (mkSymTab (program tab) (Some o) (globalObjectList tab)))
      as Ht1 by (unfold st1, withCursor; by rewrite Htab).
    destruct (IH st1 (mkSymTab (program tab) (Some o) (globalObjectList tab))
                o) as (r & Hwalk & Hrun);
      [by rewrite Hs1 | exact Ht1 | done | rewrite Hs1; lia | lia |].
    rewrite Hs1 in Hwalk. exists r. split.
    + cbn [outermost]. rewrite Hsc, Ho.
      apply outermost_mono with (S o); [done | lia].
    + cbn [exitBlocks].
      rewrite (bind_run _ _ _ _ _
                 (exitBlock_step st tab c sc Htab Hcur Hsc)).
      rewrite Ho. fold st1. rewrite Hrun. unfold st1.
      by rewrite withCursor_twice.
  - exists c. cbn [outermost]. rewrite Hsc, Ho. split; [done|].
    rewrite (exitBlocks_root _ st tab c sc) by done.
    by rewrite <- Hcur, withCursor_same.
Qed.

(** X7: in a reachable state with the cursor on scope [c], calling
    [exitBlock] [c] times or more leaves the cursor on the scope where
    the walk along [outer] from [c] ends, a scope without [outer], and
    changes nothing else. *)
Theorem exitBlocks_reach_outermost `{IdentBound} (st : State)
    (tab : SymTab) (c n : nat) :
  reachable st →
  symbolTable st = Some tab → currentScope tab = Some c → c ≤ n →
  ∃ r sc,
    outermost (length (scopes st)) (scopes st) c = Some r ∧
    scopes st !! r = Some sc ∧ outer sc = None ∧
    exitBlocks n st = Ok tt (withCursor (Some r) st).
Proof.
  intros Hreach Htab Hcur Hn.
  destruct (reachable_scopesWf st Hreach) as [Houter Hcursor _].
  pose proof (Hcursor tab c Htab Hcur) as Hlive.
  destruct (exitBlocks_walk n st tab c) as (r & Hwalk & Hrun); try done.
  destruct (outermost_terminates (scopes st) Houter (S c) c)
    as (r' & sc & Hwalk' & Hr & Ho); [lia | done |].
  rewrite Hwalk in Hwalk'. injection Hwalk' as <-.
  exists r, sc. split; [|done].
  apply outermost_mono with (S c); [done | lia].
Qed.

(** ** What no call does *)

Lemma attrsGrow_refl a : attrsGrow a a.
Proof. by destruct a. Qed.

Lemma attrsGrow_trans a1 a2 a3 :
  attrsGrow a1 a2 → attrsGrow a2 a3 → attrsGrow a1 a3.
Proof.
  destruct a1, a2; simpl; try done; try (by intros ->);
    destruct a3; simpl; try done.
  - intros (? & -> & ->) (? & -> & ->). split; [by etrans | done].
  - intros (? & ->) (? & ->). split; [by etrans | done].
Qed.

Lemma objectGrows_refl o : objectGrows o o.
Proof. split; [done|]. split; [done | apply attrsGrow_refl]. Qed.

Lemma scopeGrows_refl sc : scopeGrows sc sc.
Proof. by split. Qed.

Lemma grows_refl st : grows st st.
Proof.
  split; try done.
  - intros a o Ha. exists o. split; [done | apply objectGrows_refl].
  - intros a sc Ha. exists sc. split; [done | apply scopeGrows_refl].
Qed.

Lemma grows_trans st1 st2 st3 : grows st1 st2 → grows st2 st3 → grows st1 st3.
Proof.
  intros [Ht1 Hc1 Ho1 Hs1 He1 Hi1 Hh1] [Ht2 Hc2 Ho2 Hs2 He2 Hi2 Hh2].
  split; try (by etrans); try congruence.
  - intros a o Ha. destruct (Ho1 a o Ha) as (o2 & Ha2 & Hn & Hk & Hat).
    destruct (Ho2 a o2 Ha2) as (o3 & Ha3 & Hn' & Hk' & Hat').
    exists o3. split; [done|]. split; [congruence|].
    split; [congruence | by eapply attrsGrow_trans].
  - intros a sc Ha. destruct (Hs1 a sc Ha) as (s2 & Ha2 & Hw & Hu & Hl).
    destruct (Hs2 a s2 Ha2) as (s3 & Ha3 & Hw' & Hu' & Hl').
    exists s3. split; [done|]. split; [congruence|].
    split; [congruence | by etrans].
Qed.

Lemma grows_update_object st w own own' :
  objects st !! w = Some own → objectGrows own own' →
  grows st (set_cells Objects (<[w:=own']> (objects st)) st).
Proof.
  intros Hw Hgrow. pose proof (lookup_lt_Some _ _ _ Hw).
  split; simpl; try done.
  - intros a o Ha. destruct (decide (a = w)) as [->|Hne].
    + exists own'. rewrite list_lookup_insert_eq by done. by simplify_eq.
    + exists o. rewrite list_lookup_insert_ne by done.
      split; [done | apply objectGrows_refl].
  - intros a sc Ha. exists sc. split; [done | apply scopeGrows_refl].
Qed.

Lemma grows_update_scope st cur sc sc' :
  scopes st !! cur = Some sc → scopeGrows sc sc' →
  grows st (set_cells Scopes (<[cur:=sc']> (scopes st)) st).
Proof.
  intros Hw Hgrow. pose proof (lookup_lt_Some _ _ _ Hw).
  split; simpl; try done.
  - intros a o Ha. exists o. split; [done | apply objectGrows_refl].
  - intros a s Ha. destruct (decide (a = cur)) as [->|Hne].
    + exists sc'. rewrite list_lookup_insert_eq by done. by simplify_eq.
    + exists s. rewrite list_lookup_insert_ne by done.
      split; [done | apply scopeGrows_refl].
Qed.

(** A state whose regions are those of [st] with blocks appended. *)
Lemma grows_append st st' ts cs os ss es :
  types st' = types st ++ ts → constants st' = constants st ++ cs →
  objects st' = objects st ++ os → scopes st' = scopes st ++ ss →
  stderr st' = stderr st ++ es →
  globalIntType st' = globalIntType st →
  globalCharType st' = globalCharType st →
  grows st st'.
Proof.
  intros Ht Hc Ho Hs He Hi Hh.
  split; rewrite ?Ht, ?Hc, ?Ho, ?Hs, ?He; try done;
    try (by apply prefix_app_r).
  - intros a o Ha. exists o. rewrite lookup_app_l by (by eapply lookup_lt_Some).
    split; [done | apply objectGrows_refl].
  - intros a sc Ha. exists sc.
    rewrite lookup_app_l by (by eapply lookup_lt_Some).
    split; [done | apply scopeGrows_refl].
Qed.

(** A state that differs in the table only. *)
Lemma grows_table st tab : grows st (setSymTab tab st).
Proof.
  eapply (grows_append _ _ [] [] [] [] []); simpl; by rewrite ?app_nil_r.
Qed.

(** Every return of [declareObject] is a no-op or the append of one
    entry to one parameter list or to one local list. *)
Lemma declareObject_Ok_grows obj st st' :
  declareObject obj st = Ok tt st' → grows st st'.
Proof.
  unfold declareObject, addFuncParam, addProcParam, addLocalObject.
  unfold_M. intros Hrun.
  repeat case_match; simplify_eq; try apply grows_refl.
  - eapply (grows_update_object _ _ _ (mkObject _ _ _)); [eassumption|].
    split; [done|]. split; [done|]. simpl.
    match goal with Hattrs : attrs _ = _ |- _ => rewrite Hattrs end.
    rewrite addObject_app. split; [by apply prefix_app_r | done].
  - eapply (grows_update_object _ _ _ (mkObject _ _ _)); [eassumption|].
    split; [done|]. split; [done|]. simpl.
    match goal with Hattrs : attrs _ = _ |- _ => rewrite Hattrs end.
    rewrite addObject_app. split; [by apply prefix_app_r | done].
  - eapply (grows_update_scope _ _ _ (mkScope _ _ _)); [eassumption|].
    split; [done|]. split; [done|]. simpl.
    rewrite addObject_app. by apply prefix_app_r.
Qed.

Section NoCall.
Context `{IdentBound}.

Lemma call_grows (c : Call) (st st' : State) :
  run c st = Ok tt st' → grows st st'.
Proof.
  intros Hrun. destruct c; simpl in Hrun.
  - unfold makeIntType in Hrun. unfold_M. simplify_eq.
    by eapply (grows_append _ _ [_] [] [] [] []); simpl; rewrite ?app_nil_r.
  - unfold makeCharType in Hrun. unfold_M. simplify_eq.
    by eapply (grows_append _ _ [_] [] [] [] []); simpl; rewrite ?app_nil_r.
  - unfold makeArrayType in Hrun. unfold_M.
    repeat case_match; simplify_eq.
    + by eapply (grows_append _ _ [] [] [] [] [_]); simpl;
        rewrite ?app_nil_r.
    + by eapply (grows_append _ _ [_] [] [] [] []); simpl;
        rewrite ?app_nil_r.
  - unfold makeIntConstant in Hrun. unfold_M. simplify_eq.
    by eapply (grows_append _ _ [] [_] [] [] []); simpl; rewrite ?app_nil_r.
  - unfold makeCharConstant in Hrun. unfold_M. simplify_eq.
    by eapply (grows_append _ _ [] [_] [] [] []); simpl; rewrite ?app_nil_r.
  - unfold duplicateConstantValue in Hrun. unfold_M.
    repeat case_match; simplify_eq; try apply grows_refl;
      eapply (grows_append _ _ [] [_] [] [] []); simpl;
      rewrite ?app_nil_r, ?insert_snoc; done.
  - apply bind_Ok in Hrun as (r & st1 & Hrun & Hret).
    unfold_M. simplify_eq.
    apply construct_Ok_inv in Hrun as (n & _ & _ & _ & _ & ->).
    eapply (grows_append _ _ [] [] [_] _ []); unfold afterConstruct; simpl;
      try done; by rewrite app_nil_r.
  - unfold createScope in Hrun. unfold_M. simplify_eq.
    by eapply (grows_append _ _ [] [] [] [_] []); simpl; rewrite ?app_nil_r.
  - unfold enterBlock in Hrun. unfold_M.
    repeat case_match; simplify_eq;
      first [apply grows_refl | apply grows_table].
  - unfold exitBlock in Hrun. unfold_M.
    repeat case_match; simplify_eq;
      first [apply grows_refl | apply grows_table].
  - by eapply declareObject_Ok_grows.
Qed.

(** X8: whatever the calls and their arguments, once they have
    returned no block has been removed, moved or overwritten: the types
    and the constants that existed are unchanged, every object keeps its
    name, its kind and its attributes, and every scope its owner and its
    [outer]; the only change to an existing block is entries appended to
    a parameter list or to a local list. *)
Theorem runAll_grows (cs : list Call) (st st' : State) :
  runAll cs st = Some st' → grows st st'.
Proof.
  revert st. induction cs as [|c cs IH]; simpl; intros st Hrun.
  - simplify_eq. apply grows_refl.
  - case_bool_decide as Hcall; [|done].
    destruct (run c st) as [[] st1| |] eqn:Hc; [|done..].
    eapply grows_trans; [by eapply call_grows | by apply IH].
Qed.

End NoCall.

Section TableFacts.
Context `{IdentBound}.

Lemma call_table (c : Call) (st st' : State) :
  run c st = Ok tt st' →
  globalObjectList <$> symbolTable st' = globalObjectList <$> symbolTable st ∧
  (is_Some (cursor st) → is_Some (cursor st')) ∧
  ((∀ nm pk ow, c ≠ CallCreate NewProgram nm pk ow) →
   program <$> symbolTable st' = program <$> symbolTable st).
Proof.
  intros Hrun. destruct c; simpl in Hrun.
  - unfold makeIntType in Hrun. unfold_M. by simplify_eq.
  - unfold makeCharType in Hrun. unfold_M. by simplify_eq.
  - unfold makeArrayType in Hrun. unfold_M.
    by repeat case_match; simplify_eq.
  - unfold makeIntConstant in Hrun. unfold_M. by simplify_eq.
  - unfold makeCharConstant in Hrun. unfold_M. by simplify_eq.
  - unfold duplicateConstantValue in Hrun. unfold_M.
    by repeat case_match; simplify_eq.
  - apply bind_Ok in Hrun as (r & st1 & Hrun & Hret).
    unfold_M. simplify_eq.
    apply construct_Ok_inv in Hrun as (n & _ & _ & _ & _ & ->).
    unfold cursor, afterConstruct. simpl.
    destruct c; try done.
    destruct (symbolTable st) as [tab|]; simpl; [|done].
    split; [done|]. split; [done|]. intros Hne. by destruct (Hne name0 pkind owner0).
  - unfold createScope in Hrun. unfold_M. by simplify_eq.
  - unfold enterBlock in Hrun. unfold_M. unfold cursor.
    repeat case_match; simplify_eq/=; try done.
    all: split; [congruence|]; split; [by eauto | congruence].
  - unfold exitBlock in Hrun. unfold_M. unfold cursor.
    repeat case_match; simplify_eq/=; try done.
    all: split; [congruence|]; split; [by eauto | congruence].
  - apply declareObject_Ok_inv in Hrun
      as [-> | [(w & own & own' & Hw & Hbody & ->)
              | (cur & sc & sc' & Hcur & Hout & ->)]]; done.
Qed.

(** X9: no sequence of calls changes the global list; none unsets the
    cursor once it is set; and [program] changes only in a sequence
    that calls [createProgramObject]. *)
Theorem runAll_table (cs : list Call) (st st' : State) :
  runAll cs st = Some st' →
  globalObjectList <$> symbolTable st' = globalObjectList <$> symbolTable st ∧
  (is_Some (cursor st) → is_Some (cursor st')) ∧
  (Forall (λ c, ∀ nm pk ow, c ≠ CallCreate NewProgram nm pk ow) cs →
   program <$> symbolTable st' = program <$> symbolTable st).
Proof.
  revert st. induction cs as [|c cs IH]; simpl; intros st Hrun.
  - by simplify_eq.
  - case_bool_decide as Hcall; [|done].
    destruct (run c st) as [[] st1| |] eqn:Hc; [|done..].
    destruct (call_table c st st1 Hc) as (Hg1 & Hc1 & Hp1).
    destruct (IH st1 Hrun) as (Hg & Hcur & Hp).
    split; [congruence|]. split; [by auto|].
    intros [Hhead Htail]%Forall_cons. rewrite Hp, Hp1; done.
Qed.

End TableFacts.

(** ** Objects stay well-formed *)

Lemma live_mono st st' e :
  length (objects st) ≤ length (objects st') → live st e → live st' e.
Proof. destruct e; simpl; [lia | done]. Qed.

Lemma valid_objects_mono st st' p :
  length (objects st) ≤ length (objects st') →
  valid Objects st p → valid Objects st' p.
Proof. destruct p; simpl; [lia | done]. Qed.

Lemma heapWf_builtins : heapWf builtinsState.
Proof.
  split; unfold builtinsState; simpl.
  - intros a o Ho. by do 7 (destruct a as [|a]; [by simplify_eq/=|]).
  - intros a o s Ho Hs.
    do 7 (destruct a as [|a];
            [unfold bodyScope in Hs; simplify_eq/=; by eexists|]).
    done.
  - intros a sc Hsc.
    do 5 (destruct a as [|a]; [simplify_eq/=; lia|]). done.
  - intros a sc Hsc.
    do 5 (destruct a as [|a]; [by simplify_eq/=|]). done.
  - intros a o pl Ho Hpl.
    do 7 (destruct a as [|a];
            [unfold paramListOf in Hpl; simplify_eq/=;
             repeat constructor; simpl; lia|]).
    done.
  - intros tab [= <-]. simpl. repeat constructor; simpl; lia.
Qed.

Lemma heapWf_frame st st' :
  objects st' = objects st → scopes st' = scopes st →
  globalObjectList <$> symbolTable st' = globalObjectList <$> symbolTable st →
  heapWf st → heapWf st'.
Proof.
  intros Ho Hs Hg [Hkind Hback Howner Hlocals Hparams Hglobals].
  assert (∀ e, live st e → live st' e) as Hlive
    by (intros e; apply live_mono; by rewrite Ho).
  split; rewrite ?Ho, ?Hs; eauto using Forall_impl.
  - intros a sc Hsc. eapply valid_objects_mono; [|by eapply Howner].
    by rewrite Ho.
  - intros tab Htab. rewrite Htab in Hg.
    destruct (symbolTable st) as [tab0|]; simplify_eq/=.
    rewrite Hg. eauto using Forall_impl.
Qed.

Lemma heapWf_new_scope st own out :
  valid Objects st own → heapWf st →
  heapWf (set_cells Scopes (scopes st ++ [mkScope [] own out]) st).
Proof.
  intros Hvalid [Hkind Hback Howner Hlocals Hparams Hglobals].
  split; simpl; try done.
  - intros a o s Ho Hs. destruct (Hback a o s Ho Hs) as (sc & Hsc & Hown).
    exists sc. split; [|done]. by apply lookup_app_l_Some.
  - intros a sc [Ha | [_ Ha]]%lookup_app_Some; [by eapply Howner|].
    destruct (a - length (scopes st)); by simplify_eq/=.
  - intros a sc [Ha | [_ Ha]]%lookup_app_Some; [by eapply Hlocals|].
    destruct (a - length (scopes st)); by simplify_eq/=.
Qed.

Lemma heapWf_afterConstruct c n pk own st :
  valid Objects st own → heapWf st →
  heapWf (afterConstruct c n pk own st).
Proof.
  intros Hvalid [Hkind Hback Howner Hlocals Hparams Hglobals].
  assert (∀ e, live st e → live (afterConstruct c n pk own st) e) as Hlive.
  { intros e. apply live_mono. unfold afterConstruct. simpl.
    rewrite length_app. lia. }
  unfold afterConstruct in Hlive |- *. split; simpl.
  - intros a o [Ha | [_ Ha]]%lookup_app_Some; [by eapply Hkind|].
    destruct (a - length (objects st)); simplify_eq/=. by destruct c.
  - intros a o s [Ha | [Hlen Ha]]%lookup_app_Some Hs.
    + destruct (Hback a o s Ha Hs) as (sc & Hsc & Hown).
      exists sc. split; [|done]. by apply lookup_app_l_Some.
    + destruct (a - length (objects st)) as [|k] eqn:Hk; simplify_eq/=.
      assert (a = length (objects st)) as -> by lia.
      unfold bodyScope in Hs.
      destruct c; simplify_eq/=; eexists; by rewrite lookup_snoc.
  - intros a sc [Ha | [_ Ha]]%lookup_app_Some.
    + eapply valid_objects_mono; [|by eapply Howner].
      simpl. rewrite length_app. lia.
    + destruct (makesScope c); [|done].
      destruct (a - length (scopes st)); simplify_eq/=.
      rewrite length_app. simpl. lia.
  - intros a sc [Ha | [_ Ha]]%lookup_app_Some.
    + eapply Forall_impl; [by eapply Hlocals | done].
    + destruct (makesScope c); [|done].
      destruct (a - length (scopes st)); by simplify_eq/=.
  - intros a o pl [Ha | [_ Ha]]%lookup_app_Some Hpl.
    + eapply Forall_impl; [by eapply Hparams | done].
    + destruct (a - length (objects st)); simplify_eq/=.
      unfold paramListOf in Hpl. destruct c; by simplify_eq/=.
  - intros tab Htab.
    assert (∃ tab0, symbolTable st = Some tab0 ∧
                    globalObjectList tab = globalObjectList tab0)
      as (tab0 & Ht0 & ->).
    { destruct c; simpl in Htab; eauto.
      destruct (symbolTable st) as [tab0|]; simplify_eq/=. eauto. }
    eapply Forall_impl; [by eapply Hglobals | done].
Qed.

Lemma heapWf_declare_local st cur sc a :
  scopes st !! cur = Some sc → a < length (objects st) → heapWf st →
  heapWf (set_cells Scopes
            (<[cur:=mkScope (objList sc ++ [Some a]) (owner sc) (outer sc)]>
               (scopes st)) st).
Proof.
  intros Hcur Hlive [Hkind Hback Howner Hlocals Hparams Hglobals].
  pose proof (lookup_lt_Some _ _ _ Hcur) as Hlt.
  split; simpl; try done.
  - intros b o s Ho Hs. destruct (Hback b o s Ho Hs) as (sc0 & Hsc0 & Hown).
    destruct (decide (s = cur)) as [->|Hne].
    + eexists. rewrite list_lookup_insert_eq by done.
      split; [done|]. simpl. congruence.
    + exists sc0. by rewrite list_lookup_insert_ne.
  - intros b sc0 [[-> [<- _]] | [_ Hb]]%list_lookup_insert_Some;
      simpl; by eapply Howner.
  - intros b sc0 [[-> [<- _]] | [_ Hb]]%list_lookup_insert_Some; simpl.
    + apply Forall_app. split; [by eapply Hlocals|]. by repeat constructor.
    + by eapply Hlocals.
Qed.

Lemma heapWf_declare_param st w own own' pl a :
  objects st !! w = Some own → a < length (objects st) →
  kind own' = kind own → kindOfAttrs (attrs own') = kindOfAttrs (attrs own) →
  bodyScope own' = bodyScope own →
  paramListOf own = Some pl → paramListOf own' = Some (pl ++ [Some a]) →
  heapWf st →
  heapWf (set_cells Objects (<[w:=own']> (objects st)) st).
Proof.
  intros Hw Hlive Hk Hka Hbody Hpl Hpl'
    [Hkind Hback Howner Hlocals Hparams Hglobals].
  pose proof (lookup_lt_Some _ _ _ Hw) as Hlt.
  assert (∀ e, live st e →
               live (set_cells Objects (<[w:=own']> (objects st)) st) e)
    as Hmono.
  { intros e. apply live_mono. simpl. by rewrite length_insert. }
  split; simpl.
  - intros b o [[-> [<- _]] | [_ Hb]]%list_lookup_insert_Some;
      [|by eapply Hkind].
    rewrite Hka, Hk. by eapply Hkind.
  - intros b o s [[-> [<- _]] | [_ Hb]]%list_lookup_insert_Some Hs;
      [|by eapply Hback].
    rewrite Hbody in Hs. by eapply Hback.
  - intros b sc Hsc. eapply valid_objects_mono; [|by eapply Howner].
    simpl. by rewrite length_insert.
  - intros b sc Hsc. eapply Forall_impl; [by eapply Hlocals | done].
  - intros b o pl0 [[-> [<- _]] | [_ Hb]]%list_lookup_insert_Some Hpl0.
    + rewrite Hpl' in Hpl0. injection Hpl0 as <-.
      apply Forall_app. split.
      * eapply Forall_impl; [by eapply Hparams | done].
      * repeat constructor. simpl. by rewrite length_insert.
    + eapply Forall_impl; [by eapply Hparams | done].
  - intros tab Htab. eapply Forall_impl; [by eapply Hglobals | done].
Qed.

(** Every return of [declareObject], with the entry it appends. *)
Lemma declareObject_Ok_cases obj st st' :
  declareObject obj st = Ok tt st' →
  st' = st ∨
  (∃ a w own own' pl,
     obj = Some a ∧ a < length (objects st) ∧
     objects st !! w = Some own ∧
     kind own' = kind own ∧
     kindOfAttrs (attrs own') = kindOfAttrs (attrs own) ∧
     bodyScope own' = bodyScope own ∧
     paramListOf own = Some pl ∧ paramListOf own' = Some (pl ++ [Some a]) ∧
     st' = set_cells Objects (<[w:=own']> (objects st)) st) ∨
  (∃ a cur sc,
     obj = Some a ∧ a < length (objects st) ∧
     scopes st !! cur = Some sc ∧
     st' = set_cells Scopes
             (<[cur:=mkScope (objList sc ++ [Some a]) (owner sc) (outer sc)]>
                (scopes st)) st).
Proof.
  unfold declareObject, addFuncParam, addProcParam, addLocalObject.
  unfold_M. intros Hrun.
  repeat case_match; simplify_eq; auto; right; [left | left | right].
  1,2: eexists _, _, _, (mkObject _ _ _), _.
  3: eexists _, _, _.
  all: split_and!;
    [.. | match goal with
          | Ht : symbolTable _ = Some _ |- _ =>
              simpl; rewrite <- ?Ht, ?addObject_app; reflexivity
          end];
    try done; try eassumption; try (by eapply lookup_lt_Some);
    unfold bodyScope, paramListOf; simpl;
    repeat match goal with
           | Hattrs : attrs _ = _ |- _ => rewrite Hattrs; clear Hattrs
           end;
    by rewrite ?addObject_app.
Qed.

Section ObjectsWf.
Context `{IdentBound}.

Lemma run_preserves_heapWf c st st' :
  heapWf st → wellFormedCall st c → run c st = Ok tt st' → heapWf st'.
Proof.
  intros Hwf Hcall Hrun.
  destruct c; simpl in Hrun, Hcall.
  - unfold makeIntType in Hrun. unfold_M. simplify_eq.
    (eapply heapWf_frame; [| | |eassumption]; done).
  - unfold makeCharType in Hrun. unfold_M. simplify_eq.
    (eapply heapWf_frame; [| | |eassumption]; done).
  - unfold makeArrayType in Hrun. unfold_M.
    repeat case_match; simplify_eq; (eapply heapWf_frame; [| | |eassumption]; done).
  - unfold makeIntConstant in Hrun. unfold_M. simplify_eq.
    (eapply heapWf_frame; [| | |eassumption]; done).
  - unfold makeCharConstant in Hrun. unfold_M. simplify_eq.
    (eapply heapWf_frame; [| | |eassumption]; done).
  - clear Hcall. unfold duplicateConstantValue in Hrun. unfold_M.
    repeat case_match; simplify_eq;
      (eapply heapWf_frame; [| | |eassumption]; done).
  - apply bind_Ok in Hrun as (r & st1 & Hrun & Hret).
    unfold_M. simplify_eq.
    apply construct_Ok_inv in Hrun as (n & _ & _ & _ & _ & ->).
    by apply heapWf_afterConstruct.
  - unfold createScope in Hrun. unfold_M. simplify_eq.
    destruct Hcall as [Hown _]. by apply (heapWf_new_scope st).
  - unfold enterBlock in Hrun. unfold_M.
    repeat case_match; simplify_eq; [|done].
    eapply heapWf_frame; [| | |eassumption]; [done..|]. simpl.
    by match goal with
       | Ht : symbolTable _ = Some _ |- _ => rewrite Ht
       end.
  - unfold exitBlock in Hrun. unfold_M.
    repeat case_match; simplify_eq; [|done].
    eapply heapWf_frame; [| | |eassumption]; [done..|]. simpl.
    by match goal with
       | Ht : symbolTable _ = Some _ |- _ => rewrite Ht
       end.
  - apply declareObject_Ok_cases in Hrun
      as [-> | [(a & w & own & own' & pl & -> & Ha & Hw & Hk & Hka & Hb
                 & Hpl & Hpl' & ->)
              | (a & cur & sc & -> & Ha & Hcur & ->)]];
      eauto using heapWf_declare_param, heapWf_declare_local.
Qed.

Lemma reachable_heapWf st : reachable st → heapWf st.
Proof.
  induction 1 as [st Hinit | st c st' _ IH Hcall Hrun].
  - apply initSymTab_Ok_inv in Hinit as ->. apply heapWf_builtins.
  - by eapply run_preserves_heapWf.
Qed.

Lemma reachable_grows st : reachable st → grows builtinsState st.
Proof.
  induction 1 as [st Hinit | st c st' _ IH Hcall Hrun].
  - apply initSymTab_Ok_inv in Hinit as ->. apply grows_refl.
  - eapply grows_trans; [done|]. by eapply call_grows.
Qed.

Lemma reachable_globals st :
  reachable st →
  globalObjectList <$> symbolTable st =
    Some [Some 0; Some 1; Some 2; Some 4; Some 6].
Proof.
  induction 1 as [st Hinit | st c st' _ IH Hcall Hrun].
  - by apply initSymTab_Ok_inv in Hinit as ->.
  - by rewrite (proj1 (call_table c st st' Hrun)).
Qed.

End ObjectsWf.

(** ** Lookups and declarations in reachable states *)

Lemma findObject_live l n st :
  (∀ e, e ∈ l → ∃ a o, e = Some a ∧ objects st !! a = Some o) →
  ∃ r, findObject l n st = Ok r st.
Proof.
  intros Hlive.
  destruct (findObject_outcome l n st)
    as [(Hall & Hmiss)
       | [(l1 & e & l2 & -> & Hl1 & He & Hfault)
         | (l1 & p & l2 & o & -> & Hl1 & Hp & Hn & Hhit)]]; [by eauto| |by eauto].
  destruct (Hlive e) as (a & o & -> & Ha);
    [apply elem_of_app; right; apply elem_of_cons; by left|].
  simpl in He. congruence.
Qed.

Lemma live_lookup st l e :
  Forall (live st) l → e ∈ l → ∃ a o, e = Some a ∧ objects st !! a = Some o.
Proof.
  intros Hall He. rewrite Forall_forall in Hall. specialize (Hall e He).
  destruct e as [a|]; [|done]. simpl in Hall.
  destruct (lookup_lt_is_Some_2 _ _ Hall) as [o Ho]. by exists a, o.
Qed.


Section ReachableFacts.
Context `{IdentBound}.

(** X10: in every reachable state the global list answers each of the
    five built-in names with its object and every other name with
    [NULL]. *)
Theorem findObject_builtins (st : State) (n : string) :
  reachable st →
  ∃ tab,
    symbolTable st = Some tab ∧
    findObject (globalObjectList tab) n st = Ok (builtin n) st.
Proof.
  intros Hreach.
  pose proof (reachable_globals st Hreach) as Hglobals.
  destruct (symbolTable st) as [tab|]; [|done].
  injection Hglobals as Hglobals. exists tab. split; [done|].
  rewrite Hglobals. clear Hglobals.
  destruct (reachable_grows st Hreach) as [_ _ Hobjs _ _ _ _].
  destruct (Hobjs 0 _ eq_refl) as (o0 & Ho0 & Hn0 & _).
  destruct (Hobjs 1 _ eq_refl) as (o1 & Ho1 & Hn1 & _).
  destruct (Hobjs 2 _ eq_refl) as (o2 & Ho2 & Hn2 & _).
  destruct (Hobjs 4 _ eq_refl) as (o4 & Ho4 & Hn4 & _).
  destruct (Hobjs 6 _ eq_refl) as (o6 & Ho6 & Hn6 & _).
  simpl in Hn0, Hn1, Hn2, Hn4, Hn6. unfold builtin.
  rewrite !findObject_cons, Ho0, Ho1, Ho2, Ho4, Ho6.
  rewrite Hn0, Hn1, Hn2, Hn4, Hn6.
  by repeat case_bool_decide.
Qed.

(** X11: in every reachable state the kind of each object is the kind
    of its attribute block, and the scope owned by a Program, Function
    or Procedure is live and has that object as its owner. *)
Theorem reachable_objects_consistent (st : State) :
  reachable st →
  ∀ a o,
    objects st !! a = Some o →
    kindOfAttrs (attrs o) = Some (kind o) ∧
    (∀ s, bodyScope o = Some s →
          ∃ sc, scopes st !! s = Some sc ∧ owner sc = Some a).
Proof.
  intros Hreach a o Ho.
  destruct (reachable_heapWf st Hreach) as [Hkind Hback _ _ _ _].
  split; [by eapply Hkind|]. intros s Hs. by eapply Hback.
Qed.


(** X13: in every reachable state [findObject] returns on the local
    list of every scope and on the parameter list of every Function or
    Procedure, whatever the name: the lists hold live objects only. *)
Theorem findObject_total (st : State) (n : string) :
  reachable st →
  (∀ a sc, scopes st !! a = Some sc →
           ∃ r, findObject (objList sc) n st = Ok r st) ∧
  (∀ a o pl, objects st !! a = Some o → paramListOf o = Some pl →
             ∃ r, findObject pl n st = Ok r st).
Proof.
  intros Hreach.
  destruct (reachable_heapWf st Hreach) as [_ _ _ Hlocals Hparams _].
  split.
  - intros a sc Hsc. apply findObject_live. intros e.
    apply live_lookup. by eapply Hlocals.
  - intros a o pl Ho Hpl. apply findObject_live. intros e.
    apply live_lookup. by eapply Hparams.
Qed.

End ReachableFacts.

(** ** Constants and types *)

(** X14: a constant made by [makeIntConstant] or [makeCharConstant] and
    then duplicated gives two different blocks that hold the same tag
    and value, appended to the constants in that order; nothing else
    changes. *)
Theorem make_then_duplicate (st : State) :
  (∀ v,
     (c ← makeIntConstant v; d ← duplicateConstantValue c; mret (c, d)) st =
       Ok (Some (length (constants st)), Some (S (length (constants st))))
          (set_cells Constants
             (constants st ++ [mkConstantValue TP_INT (IntMember v);
                               mkConstantValue TP_INT (IntMember v)]) st)) ∧
  (∀ v,
     (c ← makeCharConstant v; d ← duplicateConstantValue c; mret (c, d)) st =
       Ok (Some (length (constants st)), Some (S (length (constants st))))
          (set_cells Constants
             (constants st ++ [mkConstantValue TP_CHAR (CharMember v);
                               mkConstantValue TP_CHAR (CharMember v)]) st)).
Proof.
  split; intros v.
  - unfold makeIntConstant.
    set (st1 := set_cells Constants
                  (constants st ++ [mkConstantValue TP_INT (IntMember v)]) st).
    assert (duplicateConstantValue (Some (length (constants st))) st1 =
              Ok (Some (length (constants st1)))
                 (set_cells Constants
                    (constants st1 ++ [mkConstantValue TP_INT (IntMember v)])
                    st1)) as Hdup.
    { apply duplicateConstantValue_run; [apply lookup_snoc | done]. }
    unfold_M. fold st1. rewrite Hdup. unfold st1. simpl.
    by rewrite length_app, Nat.add_1_r, <- app_assoc.
  - unfold makeCharConstant.
    set (st1 := set_cells Constants
                  (constants st ++ [mkConstantValue TP_CHAR (CharMember v)])
                  st).
    assert (duplicateConstantValue (Some (length (constants st))) st1 =
              Ok (Some (length (constants st1)))
                 (set_cells Constants
                    (constants st1 ++ [mkConstantValue TP_CHAR (CharMember v)])
                    st1)) as Hdup.
    { apply duplicateConstantValue_run; [apply lookup_snoc | done]. }
    unfold_M. fold st1. rewrite Hdup. unfold st1. simpl.
    by rewrite length_app, Nat.add_1_r, <- app_assoc.
Qed.

Section TypesWf.
Context `{IdentBound}.



End TypesWf.

(** ** Declaring through the cursor *)

Lemma insert_middle {T} (l k : list T) (x y : T) :
  <[length l:=y]> (l ++ x :: k) = l ++ y :: k.
Proof.
  rewrite <- (Nat.add_0_r (length l)) at 1. by rewrite insert_app_r.
Qed.

Section Scenarios.
Context `{IdentBound}.

(** X16: a Variable created with the cursor on one scope and declared
    after the cursor has moved to a live scope [c2] is listed in [c2],
    while the scope recorded in the Variable is still the one that
    was current when it was created. *)
Theorem variable_keeps_creation_scope (st : State) (tab : SymTab)
    (n : string) (c2 : addr) (sc2 : Scope) :
  symbolTable st = Some tab → String.length n < MAX_IDENT_LEN →
  scopes st !! c2 = Some sc2 →
  ∃ st',
    (var ← createVariableObject (Some n);
     enterBlock (Some c2);; declareObject var;; mret var) st =
      Ok (Some (length (objects st))) st' ∧
    objects st' !! length (objects st) =
      Some (mkObject n OBJ_VARIABLE (varAttrs None (currentScope tab))) ∧
    scopes st' !! c2 =
      Some (mkScope (objList sc2 ++ [Some (length (objects st))])
              (owner sc2) (outer sc2)) ∧
    cursor st' = Some c2.
Proof.
  intros Htab Hlen Hsc2.
  pose proof (construct_run NewVariable n PARAM_VALUE None st Hlen
                (λ _, mk_is_Some _ _ Htab)) as Hnew.
  simpl in Hnew. rewrite (bind_run _ _ _ _ _ Hnew).
  set (st1 := afterConstruct NewVariable n PARAM_VALUE None st).
  assert (symbolTable st1 = Some tab) as Htab1 by done.
  rewrite (bind_run _ _ _ _ _ (enterBlock_scope c2 st1 tab Htab1)).
  set (st2 := setSymTab _ st1).
  assert (scopes st2 !! c2 = Some sc2) as Hsc2'.
  { simpl. by apply lookup_app_l_Some. }
  assert (objects st2 !! length (objects st) =
            Some (mkObject n OBJ_VARIABLE (varAttrs None (currentScope tab))))
    as Hvar.
  { simpl. rewrite lookup_snoc. unfold cursor. by rewrite Htab. }
  erewrite (bind_run _ _ _ _ _
              (declareObject_local st2 _ c2 sc2 _ _ eq_refl eq_refl Hsc2' Hvar _)).
  eexists. split; [reflexivity|]. simpl.
  split; [by rewrite lookup_snoc; unfold cursor; rewrite Htab|].
  split; [|done].
  apply list_lookup_insert_eq. rewrite length_app.
  pose proof (lookup_lt_Some _ _ _ Hsc2). lia.
  Unshelve. done.
Qed.

(** X17: declaring a function with one parameter the way the
    two-step protocol prescribes.  With the cursor on a live scope [c]:
    create the Function, declare it, enter its body scope, create and
    declare the Parameter, leave the body.  The run returns; the cursor
    is back on [c]; the Function is the last entry of the local list of
    [c]; the Parameter is the only entry of the Function's parameter
    list and the local list of the body stays empty; the body scope has
    [c] as its [outer]; no other block has changed. *)
Theorem declare_function_with_parameter (st : State) (tab : SymTab)
    (c : addr) (sc : Scope) (fn pn : string) (pk : ParamKind) :
  symbolTable st = Some tab → currentScope tab = Some c →
  scopes st !! c = Some sc →
  String.length fn < MAX_IDENT_LEN → String.length pn < MAX_IDENT_LEN →
  let f := length (objects st) in
  let body := length (scopes st) in
  (f ← createFunctionObject (Some fn);
   declareObject f;;
   fo ← load Objects f;
   enterBlock (bodyScope fo);;
   p ← createParameterObject (Some pn) pk f;
   declareObject p;;
   exitBlock;;
   mret (f, p)) st =
    Ok (Some f, Some (S f))
       (mkState (Some tab) (globalIntType st) (globalCharType st)
          (types st) (constants st)
          (objects st ++
             [mkObject fn OBJ_FUNCTION (funcAttrs [Some (S f)] None (Some body));
              mkObject pn OBJ_PARAMETER (paramAttrs pk None (Some f))])
          (<[c:=mkScope (objList sc ++ [Some f]) (owner sc) (outer sc)]>
             (scopes st) ++ [mkScope [] (Some f) (Some c)])
          (stderr st)).
Proof.
  intros Htab Hcur Hsc Hfn Hpn f body.
  pose proof (lookup_lt_Some _ _ _ Hsc) as Hc.
  (* createFunctionObject *)
  pose proof (construct_run NewFunction fn PARAM_VALUE None st Hfn
                (λ _, mk_is_Some _ _ Htab)) as Hnew.
  simpl in Hnew. rewrite (bind_run _ _ _ _ _ Hnew). clear Hnew.
  set (fobj := mkObject fn OBJ_FUNCTION (funcAttrs [] None (Some body))).
  set (bsc := mkScope [] (Some f) (Some c)).
  set (st1 := afterConstruct NewFunction fn PARAM_VALUE None st).
  assert (objects st1 = objects st ++ [fobj]) as Ho1 by done.
  assert (scopes st1 = scopes st ++ [bsc]) as Hs1.
  { unfold st1, afterConstruct, cursor. simpl. by rewrite Htab, Hcur. }
  (* declareObject f *)
  assert (declareObject (Some f) st1 =
            Ok tt (set_cells Scopes
                     (<[c:=mkScope (objList sc ++ [Some f]) (owner sc)
                             (outer sc)]> (scopes st1)) st1)) as Hdecl.
  { apply (declareObject_local st1 tab c sc f fobj); try done.
    - rewrite Hs1. by apply lookup_app_l_Some.
    - rewrite Ho1. apply lookup_snoc. }
  rewrite (bind_run _ _ _ _ _ Hdecl). clear Hdecl.
  set (st2 := set_cells Scopes _ st1).
  (* load f, enterBlock *)
  assert (load Objects (Some f) st2 = Ok fobj st2) as Hload.
  { unfold load. cbn [cells Objects].
    change (objects st2) with (objects st ++ [fobj]).
    unfold f. by rewrite lookup_snoc. }
  rewrite (bind_run _ _ _ _ _ Hload). clear Hload.
  rewrite (bind_run _ _ _ _ _ (enterBlock_scope body st2 tab Htab)).
  set (st3 := setSymTab _ st2).
  (* createParameterObject *)
  pose proof (construct_run NewParameter pn pk (Some f) st3 Hpn
                (λ Hno, False_ind _ (Bool.diff_false_true Hno))) as Hnew.
  simpl in Hnew. rewrite (bind_run _ _ _ _ _ Hnew). clear Hnew.
  set (pobj := mkObject pn OBJ_PARAMETER (paramAttrs pk None (Some f))).
  set (st4 := afterConstruct NewParameter pn pk (Some f) st3).
  assert (length (objects st ++ [fobj]) = S f) as Hlen
    by (rewrite length_app; simpl; unfold f; lia).
  assert (objects st4 = (objects st ++ [fobj]) ++ [pobj]) as Ho4 by done.
  assert (scopes st4 =
            <[c:=mkScope (objList sc ++ [Some f]) (owner sc) (outer sc)]>
              (scopes st ++ [bsc])) as Hs4.
  { unfold st4, afterConstruct. simpl. rewrite app_nil_r.
    unfold cursor. by rewrite Htab, Hcur. }
  (* declareObject p *)
  assert (declareObject (Some (S f)) st4 =
            Ok tt (set_cells Objects
                     (<[f:=mkObject fn OBJ_FUNCTION
                             (funcAttrs ([] ++ [Some (S f)]) None (Some body))]>
                        (objects st4)) st4)) as Hdecl.
  { apply (declareObject_func st4
             (mkSymTab (program tab) (Some body) (globalObjectList tab))
             body bsc (S f) pobj eq_refl eq_refl) with (own := fobj);
      try done.
    - rewrite Hs4. rewrite list_lookup_insert_ne by (unfold body; lia).
      apply lookup_snoc.
    - rewrite Ho4, <- Hlen. apply lookup_snoc.
    - rewrite Ho4. rewrite lookup_app_l by (rewrite Hlen; lia).
      apply lookup_snoc. }
  pose proof Hlen as Hlen'. unfold fobj, body in Hlen'. rewrite !Hlen'.
  rewrite (bind_run _ _ _ _ _ Hdecl). clear Hdecl.
  set (st5 := set_cells Objects _ st4).
  (* exitBlock *)
  assert (exitBlock st5 =
            Ok tt (setSymTab
                     (Some (mkSymTab (program tab) (Some c)
                              (globalObjectList tab))) st5)) as Hexit.
  { apply (exitBlock_outer st5
             (mkSymTab (program tab) (Some body) (globalObjectList tab))
             body bsc c); try done.
    change (scopes st5) with (scopes st4). rewrite Hs4.
    rewrite list_lookup_insert_ne by (unfold body; lia). apply lookup_snoc. }
  rewrite (bind_run _ _ _ _ _ Hexit). clear Hexit.
  unfold mret, M_ret. f_equal.
  unfold setSymTab, st5, set_cells at 1. simpl. f_equal.
  - destruct tab. by simplify_eq/=.
  - rewrite <- app_assoc. simpl. unfold f. by rewrite insert_middle.
  - rewrite app_nil_r. unfold cursor. rewrite Htab, Hcur.
    by rewrite insert_app_l.
Qed.

End Scenarios.

(** ** Memory cleanup *)







(** *** What the cleanup of objects keeps *)

Lemma andThen_Released {A B} (r : cleanup A) (k : A → cleanup B) b :
  andThen r k = Released b ↔ ∃ a, r = Released a ∧ k a = Released b.
Proof.
  destruct r as [a| |]; simpl; split; try done.
  - eauto.
  - by intros (a' & [= <-] & Hk).
  - by intros (a' & ? & _).
  - by intros (a' & ? & _).
Qed.

Lemma keepsObjects_andThen g k :
  keepsObjects g → (keepsObjects k) → keepsObjects (λ f, andThen (g f) k).
Proof.
  intros Hg Hk f f2 (f1 & H1 & H2)%andThen_Released.
  etrans; [by eapply Hg | by eapply Hk].
Qed.

Lemma freeType_keepsObjects fuel st ty : keepsObjects (freeType fuel st ty).
Proof.
  revert ty. induction fuel as [|fuel IH]; intros ty f f1; [done|].
  cbn [freeType]. destruct ty as [t|]; [|by intros [= <-]].
  destruct (types st !! t) as [typ|]; [|done].
  case_bool_decide; [done|].
  intros (f0 & H0 & Hblock)%andThen_Released.
  unfold freeTypeBlock in Hblock. case_bool_decide; [done|].
  injection Hblock as <-. simpl.
  case_bool_decide; [by eapply IH | by injection H0 as <-].
Qed.

Lemma freeConstantValue_keepsObjects st v :
  keepsObjects (freeConstantValue st v).
Proof.
  intros f f1. unfold freeConstantValue, freeConstantBlock.
  destruct v as [c|]; [|by intros [= <-]].
  destruct (constants st !! c); [|done].
  case_bool_decide; [done|]. by intros [= <-].
Qed.

Lemma freeObjectBlock_keepsObjects a : keepsObjects (freeObjectBlock a).
Proof.
  intros f f1. unfold freeObjectBlock. case_bool_decide; [done|].
  intros [= <-]. simpl. by apply list_subseteq_app_l.
Qed.

Lemma freeScopeBlock_keepsObjects s : keepsObjects (freeScopeBlock s).
Proof.
  intros f f1. unfold freeScopeBlock. case_bool_decide; [done|].
  by intros [= <-].
Qed.

Lemma freeEntries_keepsObjects freeOne l :
  (∀ e, keepsObjects (freeOne e)) → keepsObjects (freeEntries freeOne l).
Proof.
  intros Hone. induction l as [|e l IH]; [by intros f f1 [= <-]|].
  cbn [freeEntries]. by apply (keepsObjects_andThen _ (freeOne e)).
Qed.

Lemma freeScopeWith_keepsObjects freeOne st scope :
  (∀ e, keepsObjects (freeOne e)) →
  keepsObjects (freeScopeWith freeOne st scope).
Proof.
  intros Hone f f1. unfold freeScopeWith.
  destruct scope as [s|]; [|by intros [= <-]].
  destruct (scopes st !! s) as [sc|]; [|done].
  case_bool_decide; [done|].
  apply (keepsObjects_andThen (freeEntries freeOne (objList sc))
           (freeScopeBlock s));
    [by apply freeEntries_keepsObjects | apply freeScopeBlock_keepsObjects].
Qed.

Lemma freeObject_keepsObjects fuel st obj :
  keepsObjects (freeObject fuel st obj).
Proof.
  revert obj. induction fuel as [|fuel IH]; intros obj f f1; [done|].
  cbn [freeObject]. destruct obj as [a|]; [|by intros [= <-]].
  destruct (objects st !! a) as [o|]; [|done].
  case_bool_decide as Hfreed; [done|]. clear Hfreed. revert f f1.
  apply (keepsObjects_andThen _ (freeObjectBlock a));
    [|apply freeObjectBlock_keepsObjects].
  destruct (kind o), (attrs o); try (by intros f f1);
    eauto using freeConstantValue_keepsObjects, freeType_keepsObjects,
      freeScopeWith_keepsObjects.
  - apply (keepsObjects_andThen (freeType fuel st _)
             (λ f, andThen (freeEntries (freeObject fuel st) _ f)
                     (freeScopeWith (freeObject fuel st) st _)));
      [apply freeType_keepsObjects|].
    apply (keepsObjects_andThen (freeEntries (freeObject fuel st) _)
             (freeScopeWith (freeObject fuel st) st _));
      [by apply freeEntries_keepsObjects
      |by apply freeScopeWith_keepsObjects].
  - apply (keepsObjects_andThen (freeEntries (freeObject fuel st) _)
             (freeScopeWith (freeObject fuel st) st _));
      [by apply freeEntries_keepsObjects
      |by apply freeScopeWith_keepsObjects].
Qed.

(** An object that has been freed is among the freed. *)
Lemma freeObject_frees fuel st a f f1 :
  freeObject fuel st (Some a) f = Released f1 → a ∈ freedObjects f1.
Proof.
  destruct fuel as [|fuel]; [done|]. cbn [freeObject].
  destruct (objects st !! a) as [o|]; [|done].
  case_bool_decide; [done|].
  intros (f0 & _ & Hblock)%andThen_Released.
  unfold freeObjectBlock in Hblock. case_bool_decide; [done|].
  injection Hblock as <-. simpl. apply elem_of_app. right.
  apply elem_of_cons. by left.
Qed.

(** A freed object cannot be freed again. *)
Lemma freeObject_again fuel st a f :
  a ∈ freedObjects f → ∀ f1, freeObject fuel st (Some a) f ≠ Released f1.
Proof.
  intros Ha f1. destruct fuel as [|fuel]; [done|]. cbn [freeObject].
  destruct (objects st !! a) as [o|]; [|done].
  by rewrite bool_decide_eq_true_2.
Qed.

(** X19: no list in which one object occurs twice can be freed:
    [freeObjectList] on it never returns normally, whatever the fuel,
    the state and the blocks freed before (the second [freeObject] on
    the object reads freed memory).  This is the list [declareObject]
    builds when the same object is declared twice. *)
Theorem freeObjectList_duplicate (fuel : nat) (st : State) (f f' : Freed)
    (l1 l2 l3 : list ptr) (a : addr) :
  freeObjectList fuel st (l1 ++ Some a :: l2 ++ Some a :: l3) f
    ≠ Released f'.
Proof.
  unfold freeObjectList. revert f'.
  induction l1 as [|e l1 IH]; intros f'; simpl.
  - intros (f2 & Htail & Hhead)%andThen_Released.
    revert Hhead. apply freeObject_again. clear f'.
    revert f2 Htail. induction l2 as [|e l2 IH2]; intros f2; simpl.
    + intros (f3 & _ & Hfree)%andThen_Released.
      by eapply freeObject_frees.
    + intros (f3 & Htail & Hfree)%andThen_Released.
      eapply freeObject_keepsObjects; [done|]. by eapply IH2.
  - intros (f2 & Htail & _)%andThen_Released. by eapply IH.
Qed.

(** *** More fuel changes nothing *)

Lemma andThen_fuel {A B} (r r' : cleanup A) (k k' : A → cleanup B) :
  (r ≠ NoFuel → r' = r) →
  (∀ a, k a ≠ NoFuel → k' a = k a) →
  andThen r k ≠ NoFuel → andThen r' k' = andThen r k.
Proof.
  intros Hr Hk Hfuel. destruct r as [a| |]; [| |done].
  - rewrite Hr by done. simpl in *. by apply Hk.
  - by rewrite Hr.
Qed.

Lemma freeType_S fuel st ty f :
  freeType (S fuel) st ty f =
    match ty with
    | None => Released f
    | Some t =>
        match types st !! t with
        | None => Undefined
        | Some typ =>
            if bool_decide (t ∈ freedTypes f) then Undefined
            else
              andThen
                (if bool_decide (typeClass typ = TP_ARRAY)
                 then freeType fuel st (elementType typ) f
                 else Released f)
                (freeTypeBlock t)
        end
    end.
Proof. done. Qed.

Lemma freeType_fuel fuel st ty f :
  freeType fuel st ty f ≠ NoFuel →
  freeType (S fuel) st ty f = freeType fuel st ty f.
Proof.
  revert ty f. induction fuel as [|fuel IH]; intros ty f; [done|].
  rewrite (freeType_S (S fuel)), (freeType_S fuel).
  destruct ty as [t|]; [|done].
  destruct (types st !! t) as [typ|]; [|done].
  case_bool_decide; [done|]. apply andThen_fuel; [|done].
  case_bool_decide; [|done]. apply IH.
Qed.

Lemma freeEntries_fuel (g g' : ptr → Freed → cleanup Freed) l f :
  (∀ e f, g e f ≠ NoFuel → g' e f = g e f) →
  freeEntries g l f ≠ NoFuel → freeEntries g' l f = freeEntries g l f.
Proof.
  intros Hg. induction l as [|e l IH]; [done|]. cbn [freeEntries].
  apply andThen_fuel; [done | apply Hg].
Qed.

Lemma freeScopeWith_fuel (g g' : ptr → Freed → cleanup Freed) st scope f :
  (∀ e f, g e f ≠ NoFuel → g' e f = g e f) →
  freeScopeWith g st scope f ≠ NoFuel →
  freeScopeWith g' st scope f = freeScopeWith g st scope f.
Proof.
  intros Hg. unfold freeScopeWith. destruct scope as [s|]; [|done].
  destruct (scopes st !! s) as [sc|]; [|done].
  case_bool_decide; [done|].
  apply andThen_fuel; [by apply freeEntries_fuel | done].
Qed.

Lemma freeObject_S fuel st obj f :
  freeObject (S fuel) st obj f =
    match obj with
    | None => Released f
    | Some a =>
        match objects st !! a with
        | None => Undefined
        | Some o =>
            if bool_decide (a ∈ freedObjects f) then Undefined
            else
              andThen
                (match kind o, attrs o with
                 | OBJ_CONSTANT, constAttrs value =>
                     freeConstantValue st value f
                 | OBJ_TYPE, typeAttrs actualType =>
                     freeType fuel st actualType f
                 | OBJ_VARIABLE, varAttrs vtype _ =>
                     freeType fuel st vtype f
                 | OBJ_FUNCTION, funcAttrs paramList returnType scope =>
                     andThen (freeType fuel st returnType f) (λ f,
                     andThen (freeEntries (freeObject fuel st) paramList f)
                       (freeScopeWith (freeObject fuel st) st scope))
                 | OBJ_PROCEDURE, procAttrs paramList scope =>
                     andThen (freeEntries (freeObject fuel st) paramList f)
                       (freeScopeWith (freeObject fuel st) st scope)
                 | OBJ_PROGRAM, progAttrs scope =>
                     freeScopeWith (freeObject fuel st) st scope f
                 | OBJ_PARAMETER, paramAttrs _ ptype _ =>
                     freeType fuel st ptype f
                 | _, _ => Undefined
                 end)
                (freeObjectBlock a)
        end
    end.
Proof. done. Qed.

Lemma freeObject_fuel fuel st obj f :
  freeObject fuel st obj f ≠ NoFuel →
  freeObject (S fuel) st obj f = freeObject fuel st obj f.
Proof.
  revert obj f. induction fuel as [|fuel IH]; intros obj f; [done|].
  rewrite (freeObject_S (S fuel)), (freeObject_S fuel).
  destruct obj as [a|]; [|done].
  destruct (objects st !! a) as [o|]; [|done].
  case_bool_decide; [done|]. apply andThen_fuel; [|done].
  destruct (kind o), (attrs o); try done;
    try (by apply freeType_fuel);
    try (by apply freeScopeWith_fuel).
  - apply andThen_fuel; [apply freeType_fuel|]. intros f1.
    apply andThen_fuel; [by apply freeEntries_fuel|]. intros f2.
    by apply freeScopeWith_fuel.
  - apply andThen_fuel; [by apply freeEntries_fuel|]. intros f2.
    by apply freeScopeWith_fuel.
Qed.

Lemma cleanSymTab_fuel fuel st f :
  cleanSymTab fuel st f ≠ NoFuel →
  cleanSymTab (S fuel) st f = cleanSymTab fuel st f.
Proof.
  unfold cleanSymTab, freeObjectList.
  destruct (symbolTable st) as [tab|]; [|done].
  apply andThen_fuel; [apply freeObject_fuel|]. intros f1.
  apply andThen_fuel; [apply freeEntries_fuel, freeObject_fuel|]. intros f2.
  apply andThen_fuel; [apply freeType_fuel|]. intros f3.
  apply andThen_fuel; [apply freeType_fuel | done].
Qed.

Lemma cleanSymTab_more_fuel fuel fuel' st f r :
  cleanSymTab fuel st f = Released r → fuel ≤ fuel' →
  cleanSymTab fuel' st f = Released r.
Proof.
  intros Hrun. induction 1 as [|fuel' _ IH]; [done|].
  rewrite cleanSymTab_fuel; [done|]. by rewrite IH.
Qed.

Lemma freeType_frees fuel st t f f1 :
  freeType fuel st (Some t) f = Released f1 → t ∈ freedTypes f1.
Proof.
  destruct fuel as [|fuel]; [done|]. cbn [freeType].
  destruct (types st !! t) as [typ|]; [|done].
  case_bool_decide; [done|].
  intros (f0 & _ & Hblock)%andThen_Released.
  unfold freeTypeBlock in Hblock. case_bool_decide; [done|].
  injection Hblock as <-. simpl. apply elem_of_app. right.
  apply elem_of_cons. by left.
Qed.

Lemma freeType_keepsTypes fuel st ty f f1 :
  freeType fuel st ty f = Released f1 → freedTypes f ⊆ freedTypes f1.
Proof.
  revert ty f f1. induction fuel as [|fuel IH]; intros ty f f1; [done|].
  rewrite freeType_S. destruct ty as [t|]; [|by intros [= <-]].
  destruct (types st !! t) as [typ|]; [|done].
  case_bool_decide; [done|].
  intros (f0 & H0 & Hblock)%andThen_Released.
  unfold freeTypeBlock in Hblock. case_bool_decide; [done|].
  injection Hblock as <-. simpl. etrans; [|by apply list_subseteq_app_l].
  case_bool_decide; [by eapply IH | by injection H0 as <-].
Qed.

(** X20: [cleanSymTab] before [initSymTab] does nothing.  When it
    returns after freeing, [symbolTable] is [NULL] and the rest of the
    state is as it was, so that [globalIntType] and [globalCharType]
    still hold the addresses of blocks that are now freed; and a second
    [cleanSymTab] does nothing, whatever the fuel. *)
Theorem cleanSymTab_twice (fuel : nat) (st st' : State) (f f' : Freed) :
  (symbolTable st = None → cleanSymTab fuel st f = Released (st, f)) ∧
  (is_Some (symbolTable st) →
   cleanSymTab fuel st f = Released (st', f') →
   st' = setSymTab None st ∧
   (∀ t, globalIntType st' = Some t ∨ globalCharType st' = Some t →
         t ∈ freedTypes f') ∧
   (∀ fuel', cleanSymTab fuel' st' f' = Released (st', f'))).
Proof.
  split; [intros Htab; unfold cleanSymTab; by rewrite Htab|].
  intros [tab Htab]. unfold cleanSymTab. rewrite Htab.
  intros (f1 & _ & (f2 & _ & (f3 & Hint & (f4 & Hchar & Hret)%andThen_Released)
    %andThen_Released)%andThen_Released)%andThen_Released.
  injection Hret as <- <-. split; [done|]. split; [|done].
  simpl. intros t [Ht | Ht]; rewrite Ht in *.
  - eapply (freeType_keepsTypes fuel st _ f3 f4 Hchar).
    by eapply freeType_frees.
  - by eapply freeType_frees.
Qed.

(** X21: [cleanSymTab] right after [initSymTab] returns, for any fuel
    from 3 on; it frees every type, object and scope that [initSymTab]
    allocated, each exactly once, and leaves [symbolTable] [NULL]. *)
Theorem cleanSymTab_after_init `{IdentBound} (fuel : nat) :
  7 < MAX_IDENT_LEN → 3 ≤ fuel →
  ∃ st F,
    initSymTab startState = Ok tt st ∧
    cleanSymTab fuel st noneFreed = Released (setSymTab None st, F) ∧
    freedTypes F ≡ₚ seq 0 (length (types st)) ∧
    freedConstants F = [] ∧
    freedObjects F ≡ₚ seq 0 (length (objects st)) ∧
    freedScopes F ≡ₚ seq 0 (length (scopes st)).
Proof.
  intros Hbound Hfuel.
  exists builtinsState,
    (mkFreed [5; 4; 3; 2; 0; 1] [] [6; 5; 4; 3; 2; 1; 0] [4; 3; 2; 1; 0]).
  split; [by apply initSymTab_run|]. split.
  - apply cleanSymTab_more_fuel with 3; [by vm_compute | done].
  - simpl. split_and!; try done;
      apply (bool_decide_unpack _); by vm_compute.
Qed.

(** * The further properties on the sample runs *)

Lemma findObject_first_match_witness :
  builtinsState = builtinsState ∧
  ∃ l1 l2 o,
    [Some 0; Some 1; Some 2; Some 4; Some 6] = l1 ++ Some 2 :: l2 ∧
    Forall (otherName builtinsState "WRITEI") l1 ∧
    objects builtinsState !! 2 = Some o ∧ name o = "WRITEI".
Proof.
  exact (findObject_first_match [Some 0; Some 1; Some 2; Some 4; Some 6]
           "WRITEI" builtinsState builtinsState (Some 2) eq_refl).
Defined.

Lemma findObject_addObject_witness :
  findObject (addObject [Some 0; Some 1] (Some 3)) "READI" builtinsState
    = Ok (Some 1) builtinsState ∧
  findObject (addObject [Some 0; Some 1] (Some 3)) "i" builtinsState
    = Ok (Some 3) builtinsState.
Proof.
  split.
  - exact (proj1 (findObject_addObject [Some 0; Some 1] "READI"
                    builtinsState) 1 (Some 3) eq_refl).
  - exact (proj2 (findObject_addObject [Some 0; Some 1] "i" builtinsState)
             3 (mkObject "i" OBJ_PARAMETER
                  (paramAttrs PARAM_VALUE (Some 4) (Some 2)))
             eq_refl eq_refl).
Defined.



Lemma enterBlock_then_exitBlock_witness :
  (enterBlock (Some 6);; exitBlock) inProgramState = Ok tt inProgramState ∧
  (enterBlock (Some 0);; exitBlock) inProgramState =
    Ok tt (withCursor (Some 0) inProgramState).
Proof.
  split.
  - apply (proj2 (enterBlock_then_exitBlock inProgramState
                    (mkSymTab (Some 7) (Some 5)
                       [Some 0; Some 1; Some 2; Some 4; Some 6])
                    6 (mkScope [] (Some 8) (Some 5)) eq_refl eq_refl));
      [by eexists | reflexivity].
  - exact (proj1 (enterBlock_then_exitBlock inProgramState
                    (mkSymTab (Some 7) (Some 5)
                       [Some 0; Some 1; Some 2; Some 4; Some 6])
                    0 (mkScope [] (Some 0) None) eq_refl eq_refl)).
Defined.

Lemma exitBlocks_reach_outermost_witness :
  ∃ r sc,
    outermost (length (scopes inFunctionState)) (scopes inFunctionState) 6
      = Some r ∧
    scopes inFunctionState !! r = Some sc ∧ outer sc = None ∧
    exitBlocks 6 inFunctionState = Ok tt (withCursor (Some r) inFunctionState).
Proof.
  apply (exitBlocks_reach_outermost (H:=sampleBound) inFunctionState
           (mkSymTab (Some 7) (Some 6) [Some 0; Some 1; Some 2; Some 4; Some 6])
           6 6 inFunctionState_reachable eq_refl eq_refl).
  lia.
Defined.

Lemma runAll_grows_witness : grows builtinsState inFunctionState.
Proof.
  apply (runAll_grows (H:=sampleBound) sampleCalls). by vm_compute.
Defined.

Lemma runAll_table_witness :
  globalObjectList <$> symbolTable inProgramState =
    globalObjectList <$> symbolTable inFunctionState ∧
  (is_Some (cursor inFunctionState) → is_Some (cursor inProgramState)) ∧
  (Forall (λ c, ∀ nm pk ow, c ≠ CallCreate NewProgram nm pk ow)
     [CallExitBlock] →
   program <$> symbolTable inProgramState =
     program <$> symbolTable inFunctionState).
Proof.
  apply (runAll_table (H:=sampleBound) [CallExitBlock]). by vm_compute.
Defined.

Lemma findObject_builtins_witness :
  ∃ tab,
    symbolTable inFunctionState = Some tab ∧
    findObject (globalObjectList tab) "WRITEC" inFunctionState =
      Ok (builtin "WRITEC") inFunctionState.
Proof.
  exact (findObject_builtins (H:=sampleBound) inFunctionState "WRITEC"
           inFunctionState_reachable).
Defined.

Lemma reachable_objects_consistent_witness :
  kindOfAttrs (funcAttrs [] None (Some 6)) = Some OBJ_FUNCTION ∧
  (∀ s, Some 6 = Some s →
        ∃ sc, scopes inFunctionState !! s = Some sc ∧ owner sc = Some 8).
Proof.
  exact (reachable_objects_consistent (H:=sampleBound) inFunctionState
           inFunctionState_reachable 8
           (mkObject "F" OBJ_FUNCTION (funcAttrs [] None (Some 6))) eq_refl).
Defined.


Lemma findObject_total_witness :
  ∃ r, findObject [Some 8] "F" inFunctionState = Ok r inFunctionState.
Proof.
  exact (proj1 (findObject_total (H:=sampleBound) inFunctionState "F"
                  inFunctionState_reachable)
           5 (mkScope [Some 8] (Some 7) None) eq_refl).
Defined.


Lemma variable_keeps_creation_scope_witness :
  ∃ st',
    (var ← createVariableObject (H:=sampleBound) (Some "w");
     enterBlock (Some 5);; declareObject var;; mret var) inFunctionState =
      Ok (Some 11) st' ∧
    objects st' !! 11 =
      Some (mkObject "w" OBJ_VARIABLE (varAttrs None (Some 6))) ∧
    scopes st' !! 5 = Some (mkScope ([Some 8] ++ [Some 11]) (Some 7) None) ∧
    cursor st' = Some 5.
Proof.
  apply (variable_keeps_creation_scope (H:=sampleBound) inFunctionState
           (mkSymTab (Some 7) (Some 6) [Some 0; Some 1; Some 2; Some 4; Some 6])
           "w" 5 (mkScope [Some 8] (Some 7) None) eq_refl);
    [vm_compute; lia | reflexivity].
Defined.

Lemma declare_function_with_parameter_witness :
  ∃ st',
    (f ← createFunctionObject (H:=sampleBound) (Some "G");
     declareObject f;;
     fo ← load Objects f;
     enterBlock (bodyScope fo);;
     p ← createParameterObject (H:=sampleBound) (Some "y") PARAM_REFERENCE f;
     declareObject p;;
     exitBlock;;
     mret (f, p)) inProgramState = Ok (Some 11, Some 12) st' ∧
    symbolTable st' = symbolTable inProgramState.
Proof.
  pose proof (declare_function_with_parameter (H:=sampleBound)
                inProgramState
                (mkSymTab (Some 7) (Some 5)
                   [Some 0; Some 1; Some 2; Some 4; Some 6])
                5 (mkScope [Some 8] (Some 7) None) "G" "y" PARAM_REFERENCE
                eq_refl eq_refl eq_refl
                ltac:(vm_compute; lia) ltac:(vm_compute; lia)) as Hrun.
  eexists. split; [exact Hrun | reflexivity].
Defined.


Lemma freeObjectList_duplicate_witness :
  freeObjectList 3 inFunctionState [Some 10; Some 10] noneFreed
    ≠ Released noneFreed.
Proof.
  exact (freeObjectList_duplicate 3 inFunctionState noneFreed noneFreed
           [] [] [] 10).
Defined.

Lemma cleanSymTab_twice_witness :
  cleanSymTab 0 startState noneFreed = Released (startState, noneFreed) ∧
  (∀ t, globalIntType builtinsState = Some t ∨
        globalCharType builtinsState = Some t →
        t ∈ [5; 4; 3; 2; 0; 1]) ∧
  (∀ fuel',
     cleanSymTab fuel' (setSymTab None builtinsState)
       (mkFreed [5; 4; 3; 2; 0; 1] [] [6; 5; 4; 3; 2; 1; 0] [4; 3; 2; 1; 0])
     = Released
         (setSymTab None builtinsState,
          mkFreed [5; 4; 3; 2; 0; 1] [] [6; 5; 4; 3; 2; 1; 0]
            [4; 3; 2; 1; 0])).
Proof.
  split.
  - exact (proj1 (cleanSymTab_twice 0 startState startState noneFreed
                    noneFreed) eq_refl).
  - exact (proj2 (proj2 (cleanSymTab_twice 3 builtinsState
                    (setSymTab None builtinsState) noneFreed
                    (mkFreed [5; 4; 3; 2; 0; 1] [] [6; 5; 4; 3; 2; 1; 0]
                       [4; 3; 2; 1; 0]))
                   (mk_is_Some _ _ eq_refl) eq_refl)).
Defined.

Lemma cleanSymTab_after_init_witness :
  ∃ st F,
    initSymTab (H:=sampleBound) startState = Ok tt st ∧
    cleanSymTab 5 st noneFreed = Released (setSymTab None st, F) ∧
    freedTypes F ≡ₚ seq 0 (length (types st)) ∧
    freedConstants F = [] ∧
    freedObjects F ≡ₚ seq 0 (length (objects st)) ∧
    freedScopes F ≡ₚ seq 0 (length (scopes st)).
Proof.
  apply (cleanSymTab_after_init (H:=sampleBound) 5); vm_compute; lia.
Defined.

(** * Where the scope chain ends *)

Lemma linked_builtins : linked (λ _, None) builtinsState.
Proof.
  intros f o body Ho _ Hbody. unfold builtinsState in *. simpl in *.
  do 7 (destruct f as [|f];
          [unfold bodyScope in Hbody; simplify_eq/=; by eexists|]).
  done.
Qed.

Lemma linked_frame born st st' :
  objects st' = objects st → scopes st' = scopes st →
  linked born st → linked born st'.
Proof. intros Ho Hs Hlinked f o body. rewrite Ho, Hs. apply Hlinked. Qed.

Lemma linked_new_scope born st sc :
  linked born st → linked born (set_cells Scopes (scopes st ++ [sc]) st).
Proof.
  intros Hlinked f o body Ho Hkind Hbody. simpl in *.
  destruct (Hlinked f o body Ho Hkind Hbody) as (sb & Hsb & Hout).
  exists sb. split; [by apply lookup_app_l_Some | done].
Qed.

Lemma linked_update_scope born st cur sc sc' :
  scopes st !! cur = Some sc → outer sc' = outer sc →
  linked born st →
  linked born (set_cells Scopes (<[cur:=sc']> (scopes st)) st).
Proof.
  intros Hcur Hout Hlinked f o body Ho Hkind Hbody. simpl in *.
  destruct (Hlinked f o body Ho Hkind Hbody) as (sb & Hsb & Houter).
  destruct (decide (body = cur)) as [->|Hne].
  - exists sc'. rewrite list_lookup_insert_eq by (by eapply lookup_lt_Some).
    split; [done|]. congruence.
  - exists sb. by rewrite list_lookup_insert_ne.
Qed.

Lemma linked_update_object born st w own own' :
  objects st !! w = Some own →
  kind own' = kind own → bodyScope own' = bodyScope own →
  linked born st →
  linked born (set_cells Objects (<[w:=own']> (objects st)) st).
Proof.
  intros Hw Hk Hb Hlinked f o body Ho Hkind Hbody. simpl in *.
  apply list_lookup_insert_Some in Ho as [(-> & <- & _) | [_ Ho]].
  - rewrite Hk in Hkind. rewrite Hb in Hbody. by eapply Hlinked.
  - by eapply Hlinked.
Qed.

(** The step that depends on [createFunctionObject] and
    [createProcedureObject] passing [currentScope] to [createScope]. *)
Lemma linked_afterConstruct born c nm n pk own st :
  linked born st →
  linked (recordBirth (CallCreate c nm pk own) st born)
    (afterConstruct c n pk own st).
Proof.
  intros Hlinked f o body Ho Hkind Hbody.
  unfold afterConstruct in *. simpl in *.
  apply lookup_app_Some in Ho as [Ho | [Hlen Ho]].
  - pose proof (lookup_lt_Some _ _ _ Ho) as Hlt.
    rewrite bool_decide_eq_false_2 by lia.
    destruct (Hlinked f o body Ho Hkind Hbody) as (sb & Hsb & Hout).
    exists sb. split; [by apply lookup_app_l_Some | done].
  - destruct (f - length (objects st)) as [|k] eqn:Hk; [|done].
    assert (f = length (objects st)) as -> by lia.
    rewrite bool_decide_eq_true_2 by done.
    injection Ho as <-. unfold bodyScope in Hbody. simpl in *.
    destruct c; simpl in *; try done; try (by destruct Hkind);
      injection Hbody as <-; eexists; by rewrite lookup_snoc.
Qed.

Section ChainEnd.
Context `{IdentBound}.

Lemma run_preserves_linked born c st st' :
  linked born st → run c st = Ok tt st' →
  linked (recordBirth c st born) st'.
Proof.
  intros Hlinked Hrun. destruct c; simpl in Hrun.
  - unfold makeIntType in Hrun. unfold_M. simplify_eq.
    by apply (linked_frame _ st).
  - unfold makeCharType in Hrun. unfold_M. simplify_eq.
    by apply (linked_frame _ st).
  - unfold makeArrayType in Hrun. unfold_M.
    repeat case_match; simplify_eq;
      (eapply linked_frame; [| |eassumption]; done).
  - unfold makeIntConstant in Hrun. unfold_M. simplify_eq.
    by apply (linked_frame _ st).
  - unfold makeCharConstant in Hrun. unfold_M. simplify_eq.
    by apply (linked_frame _ st).
  - unfold duplicateConstantValue in Hrun. unfold_M.
    repeat case_match; simplify_eq;
      (eapply linked_frame; [| |eassumption]; done).
  - apply bind_Ok in Hrun as (r & st1 & Hrun & Hret).
    unfold_M. simplify_eq.
    apply construct_Ok_inv in Hrun as (n & _ & _ & _ & _ & ->).
    by apply linked_afterConstruct.
  - unfold createScope in Hrun. unfold_M. simplify_eq.
    by apply (linked_new_scope _ st).
  - unfold enterBlock in Hrun. unfold_M.
    repeat case_match; simplify_eq; [|done].
    (eapply linked_frame; [| |eassumption]; done).
  - unfold exitBlock in Hrun. unfold_M.
    repeat case_match; simplify_eq; [|done].
    (eapply linked_frame; [| |eassumption]; done).
  - simpl. apply declareObject_Ok_cases in Hrun
      as [-> | [(a & w & own & own' & pl & -> & Ha & Hw & Hk & Hka & Hb
                 & Hpl & Hpl' & ->)
              | (a & cur & sc & -> & Ha & Hcur & ->)]];
      eauto using linked_update_object, linked_update_scope.
Qed.

Lemma reachableBorn_linked st born : reachableBorn st born → linked born st.
Proof.
  induction 1 as [st Hinit | st born c st' _ IH Hcall Hrun].
  - apply initSymTab_Ok_inv in Hinit as ->. apply linked_builtins.
  - by apply run_preserves_linked.
Qed.

Lemma reachableBorn_reachable st born : reachableBorn st born → reachable st.
Proof.
  induction 1 as [st Hinit | st born c st' _ IH Hcall Hrun].
  - by apply reachable_init.
  - by eapply reachable_call.
Qed.

Lemma reachable_has_births st : reachable st → ∃ born, reachableBorn st born.
Proof.
  induction 1 as [st Hinit | st c st' _ [born IH] Hcall Hrun].
  - eexists. by apply reachableBorn_init.
  - eexists. by eapply reachableBorn_call.
Qed.

Lemma runAllBorn_reachable cs st born p :
  reachableBorn st born → runAllBorn cs st born = Some p →
  reachableBorn p.1 p.2.
Proof.
  revert st born. induction cs as [|c cs IH]; simpl; intros st born Hr Hrun.
  - by simplify_eq.
  - case_bool_decide as Hcall; [|done].
    destruct (run c st) as [[] st1| |] eqn:Hc; [|done..].
    eapply IH; [|done]. by eapply reachableBorn_call.
Qed.

Lemma sessionBorn_reachable cs p :
  sessionBorn cs = Some p → reachableBorn p.1 p.2.
Proof.
  unfold sessionBorn.
  destruct (initSymTab startState) as [[] st0| |] eqn:Hinit; [|done..].
  apply runAllBorn_reachable. by apply reachableBorn_init.
Qed.

(** C4, as the code has it.  Every reachable state is reached with a
    record [born] of the scope that was current when each object was
    created, and for every Function or Procedure [f] with body scope
    [body]: the [outer] of [body] is [born f]; following [outer] from
    [body] ends, at a scope [root] whose [outer] is absent; [root] is
    the scope where the walk from [born f] ends (so it is the root
    scope of the Program exactly when [f] was created with the cursor
    in the scope tree of the Program), and it is [body] itself when
    [born f] is [NULL], as for the built-ins. *)
Theorem scope_chain_ends_at_creation_root :
  (∀ st, reachable st → ∃ born, reachableBorn st born) ∧
  (∀ st born,
     reachableBorn st born →
     ∀ f o body,
       objects st !! f = Some o →
       kind o = OBJ_FUNCTION ∨ kind o = OBJ_PROCEDURE →
       bodyScope o = Some body →
       ∃ sb root sr,
         scopes st !! body = Some sb ∧ outer sb = born f ∧
         outermost (length (scopes st)) (scopes st) body = Some root ∧
         scopes st !! root = Some sr ∧ outer sr = None ∧
         match born f with
         | Some cur =>
             outermost (length (scopes st)) (scopes st) cur = Some root
         | None => root = body
         end).
Proof.
  split; [apply reachable_has_births|].
  intros st born Hreach f o body Ho Hkind Hbody.
  destruct (reachableBorn_linked st born Hreach f o body Ho Hkind Hbody)
    as (sb & Hsb & Hout).
  destruct (reachable_scopesWf st (reachableBorn_reachable st born Hreach))
    as [Houter _ _].
  pose proof (lookup_lt_Some _ _ _ Hsb) as Hlive.
  destruct (outermost_terminates (scopes st) Houter
              (length (scopes st)) body Hlive Hlive)
    as (root & sr & Hwalk & Hroot & Hnone).
  exists sb, root, sr. do 5 (split; [done|]).
  destruct (length (scopes st)) as [|k] eqn:Hlen; [lia|].
  cbn [outermost] in Hwalk. rewrite Hsb, Hout in Hwalk.
  destruct (born f) as [cur|] eqn:Hborn.
  - apply outermost_mono with k; [done | lia].
  - by injection Hwalk.
Qed.

End ChainEnd.

Lemma sampleSession_reachable :
  reachableBorn (H:=sampleBound) inFunctionState sampleSession.2.
Proof.
  apply (sessionBorn_reachable (H:=sampleBound) sampleCalls sampleSession).
  vm_compute. reflexivity.
Qed.

(** The function [F] of the sample run was created with the cursor on
    the root scope of [PROG], scope 5: its body scope, scope 6, has
    scope 5 as [outer], and the walk ends there. *)
Lemma scope_chain_ends_at_creation_root_witness :
  ∃ sb root sr,
    scopes inFunctionState !! 6 = Some sb ∧ outer sb = Some 5 ∧
    outermost (length (scopes inFunctionState)) (scopes inFunctionState) 6
      = Some root ∧
    scopes inFunctionState !! root = Some sr ∧ outer sr = None ∧
    outermost (length (scopes inFunctionState)) (scopes inFunctionState) 5
      = Some root.
Proof.
  exact (proj2 (scope_chain_ends_at_creation_root (H:=sampleBound))
           inFunctionState sampleSession.2 sampleSession_reachable
           8 (mkObject "F" OBJ_FUNCTION (funcAttrs [] None (Some 6))) 6
           eq_refl (or_introl eq_refl) eq_refl).
Defined.
